(** * A free-list allocator over a growable program break

    Shallow embedding of [03-select-search-mode-collector/main.cpp]: the
    block header, the alignment and footprint arithmetic, the three search
    strategies ([firstFit], [nextFit], [bestFit]), [alloc] and [free].

    Conventions.
    - [size_t] values are integers in [0, 2^64); every arithmetic
      operation of the source on them is followed by [wrap].
    - Pointers are integers; [nullptr] is [0].  Pointer arithmetic is the
      byte arithmetic of the source ([getHeader]).
    - The heap is a finite map from header addresses to [Block] records:
      a header is there when its three words are under the program break.
      Reading or writing through a pointer that is not the address of
      such a header is [Crash] here.  In the source that is an access
      outside the memory that [sbrk] granted, with one exception: a
      request whose aligned size is [2^64 - 8] has a footprint that wraps
      to 16 bytes, and the source writes [size] and [used] into these 16
      bytes and returns, where the embedding answers [Crash].  Theorems
      about whole runs say which requests they cover.
    - Loops take a fuel argument; [Timeout] means that the loop did not
      leave within that many iterations. *)

From Stdlib Require Import ZArith Bool List Lia.
From stdpp Require Import base option list gmap fin_maps.

Local Open Scope Z_scope.

(** ** Machine arithmetic and layout *)

Definition nullptr : Z := 0.

(** [size_t] is 64 bits wide: [struct Block] is commented with 8-byte
    fields and the first exercise asserts [sizeof(Block) == 32]. *)
Definition wrap (n : Z) : Z := n mod 2 ^ 64.

(** [intptr_t] reading of a 64-bit pattern (the argument type of [sbrk]). *)
Definition signed (n : Z) : Z :=
  if wrap n <? 2 ^ 63 then wrap n else wrap n - 2 ^ 64.

Definition sizeof_word_t : Z := 8.
Definition sizeof_Block : Z := 32.
Definition sizeof_data : Z := 8.

(** Offset of the member [data] in [struct Block]: after [size] (8),
    [used] (1 + 7 of padding) and [next] (8). *)
Definition offsetof_data : Z := 24.

Inductive SearchMode := FirstFit | NextFit | BestFit.

Record Block := mkBlock {
  size : Z;
  used : bool;
  next : Z
}.

(** [(n + sizeof(word_t) - 1) & ~(sizeof(word_t) - 1)] on [size_t]. *)
Definition align (n : Z) : Z :=
  Z.land (wrap (wrap (n + sizeof_word_t) - 1))
         (wrap (Z.lnot (wrap (sizeof_word_t - 1)))).

(** [size + sizeof(Block) - sizeof(data)] on [size_t]. *)
Definition allocSize (sz : Z) : Z :=
  wrap (wrap (sz + sizeof_Block) - sizeof_data).

(** [block->data]: the address of the payload of the block at [block]. *)
Definition data_of (block : Z) : Z := block + offsetof_data.

(** [(char* )data + sizeof(data) - sizeof(Block)]. *)
Definition getHeader (data : Z) : Z := data + sizeof_data - sizeof_Block.

(** ** Allocator state *)

Record Heap := mkHeap {
  mem : gmap Z Block;
  heapStart : Z;
  top : Z;
  searchStart : Z;
  searchMode : SearchMode;
  (** the operating system's side: where the break is, where it started
      and the address above which growth is denied *)
  program_break : Z;
  break_base : Z;
  break_limit : Z
}.

Definition set_mem (m : gmap Z Block) (s : Heap) : Heap :=
  mkHeap m (heapStart s) (top s) (searchStart s) (searchMode s)
         (program_break s) (break_base s) (break_limit s).
Definition set_heapStart (p : Z) (s : Heap) : Heap :=
  mkHeap (mem s) p (top s) (searchStart s) (searchMode s)
         (program_break s) (break_base s) (break_limit s).
Definition set_top (p : Z) (s : Heap) : Heap :=
  mkHeap (mem s) (heapStart s) p (searchStart s) (searchMode s)
         (program_break s) (break_base s) (break_limit s).
Definition set_searchStart (p : Z) (s : Heap) : Heap :=
  mkHeap (mem s) (heapStart s) (top s) p (searchMode s)
         (program_break s) (break_base s) (break_limit s).
Definition set_searchMode (m : SearchMode) (s : Heap) : Heap :=
  mkHeap (mem s) (heapStart s) (top s) (searchStart s) m
         (program_break s) (break_base s) (break_limit s).

(** The statics before the first call: all three pointers are [nullptr],
    the mode is [FirstFit]. *)
Definition initial (base limit : Z) : Heap :=
  mkHeap ∅ nullptr nullptr nullptr FirstFit base base limit.

(** ** Outcomes *)

Inductive outcome (A : Type) : Type :=
| Done (a : A)
| Crash
| Timeout.
Arguments Done {A} a.
Arguments Crash {A}.
Arguments Timeout {A}.

Definition bind {A B} (o : outcome A) (k : A -> outcome B) : outcome B :=
  match o with
  | Done a => k a
  | Crash => Crash
  | Timeout => Timeout
  end.

Notation "'let*' x ':=' o 'in' k" := (bind o (fun x => k))
  (at level 10, x pattern, k at level 200).

(** ** Memory accesses through a [Block*] *)

Definition load (s : Heap) (p : Z) : outcome Block :=
  match mem s !! p with
  | Some b => Done b
  | None => Crash
  end.

Definition store (p : Z) (b : Block) (s : Heap) : outcome Heap :=
  match mem s !! p with
  | Some _ => Done (set_mem (<[p := b]> (mem s)) s)
  | None => Crash
  end.

(** [p->size = v], [p->used = v], [p->next = v]. *)
Definition set_size (p v : Z) (s : Heap) : outcome Heap :=
  let* b := load s p in store p (mkBlock v (used b) (next b)) s.
Definition set_used (p : Z) (v : bool) (s : Heap) : outcome Heap :=
  let* b := load s p in store p (mkBlock (size b) v (next b)) s.
Definition set_next (p v : Z) (s : Heap) : outcome Heap :=
  let* b := load s p in store p (mkBlock (size b) (used b) v) s.

(** ** The program break

    [sbrk] and [brk] are the C library's, not the allocator's: what
    follows is the environment in which the allocator runs.
    [sbrk(increment)] moves the break by the signed increment and is
    denied when the new break would pass [break_limit] or fall under
    [break_base].  Memory handed out is zero-filled (the source never
    initialises [next] of a new block and relies on that); at the
    granularity of headers, the span between the old and the new break
    hosts a header at the old break when it is at least three words long,
    and headers that no longer fit under a lowered break disappear.  A
    grant of one or two words hosts no header: the embedding does not
    follow the source into a header whose [next] lies above the break. *)

Definition header_bytes : Z := offsetof_data.

Definition zero_block : Block := mkBlock 0 false nullptr.

Definition move_break (new : Z) (s : Heap) : Heap :=
  let old := program_break s in
  let kept := filter (fun kv : Z * Block => kv.1 + header_bytes <= new)
                     (mem s) in
  let m := if old + header_bytes <=? new then <[old := zero_block]> kept
           else kept in
  mkHeap m (heapStart s) (top s) (searchStart s) (searchMode s)
         new (break_base s) (break_limit s).

Definition sbrk (increment : Z) (s : Heap) : option Heap :=
  let new := program_break s + signed increment in
  if (break_base s <=? new) && (new <=? break_limit s)
  then Some (move_break new s)
  else None.

(** [Block* requestFromOS(size_t size)] *)
Definition requestFromOS (sz : Z) (s : Heap) : Heap * Z :=
  let block := program_break s in
  let deltaIncrement := allocSize sz in
  match sbrk deltaIncrement s with
  | None => (s, nullptr)
  | Some s' => (s', block)
  end.

(** [void resetHeap()]: [brk(heapStart)] puts the break back. *)
Definition resetHeap (s : Heap) : Heap :=
  if heapStart s =? nullptr then s
  else
    let s1 := if (break_base s <=? heapStart s) && (heapStart s <=? break_limit s)
              then move_break (heapStart s) s else s in
    set_searchStart nullptr (set_top nullptr (set_heapStart nullptr s1)).

(** [void init(SearchMode mode)] *)
Definition init (mode : SearchMode) (s : Heap) : Heap :=
  resetHeap (set_searchMode mode s).

(** ** Search strategies *)

(** The test [block->used || block->size < alignedSize] of all three
    searches. *)
Definition skips (alignedSize : Z) (b : Block) : bool :=
  used b || (size b <? alignedSize).

(** [Block* firstFit(size_t alignedSize)]: the [while] loop, entered with
    [block]. *)
Fixpoint firstFit_loop (fuel : nat) (s : Heap) (alignedSize block : Z)
  : outcome Z :=
  match fuel with
  | O => Timeout
  | S fuel' =>
    if block =? nullptr then Done nullptr
    else
      let* b := load s block in
      if skips alignedSize b
      then firstFit_loop fuel' s alignedSize (next b)
      else Done block
  end.

Definition firstFit (fuel : nat) (alignedSize : Z) (s : Heap) : outcome Z :=
  firstFit_loop fuel s alignedSize (heapStart s).

(** [Block* nextFit(size_t alignedSize)]: the [while (true)] loop, entered
    with [block]; the result carries the state because a hit writes
    [searchStart]. *)
Fixpoint nextFit_loop (fuel : nat) (s : Heap) (alignedSize block : Z)
  : outcome (Heap * Z) :=
  match fuel with
  | O => Timeout
  | S fuel' =>
    let* b := load s block in
    if skips alignedSize b then
      let block := next b in
      if block =? nullptr then
        if searchStart s =? nullptr then Done (s, nullptr)
        else
          let block := heapStart s in
          if block =? searchStart s then Done (s, nullptr)
          else nextFit_loop fuel' s alignedSize block
      else
        if block =? searchStart s then Done (s, nullptr)
        else nextFit_loop fuel' s alignedSize block
    else Done (set_searchStart block s, block)
  end.

Definition nextFit (fuel : nat) (alignedSize : Z) (s : Heap)
  : outcome (Heap * Z) :=
  let block := if searchStart s =? nullptr then heapStart s
               else searchStart s in
  if block =? nullptr then Done (s, nullptr)
  else nextFit_loop fuel s alignedSize block.

(** [Block* bestFit(size_t alignedSize)]: the [while] loop, entered with
    [block] and [bestFitBlock].  In the last [if] of the body the source
    advances [block] only inside the branch; when the test fails the next
    iteration starts from the same two pointers. *)
Fixpoint bestFit_loop (fuel : nat) (s : Heap) (alignedSize block bestFitBlock : Z)
  : outcome Z :=
  match fuel with
  | O => Timeout
  | S fuel' =>
    if block =? nullptr then Done bestFitBlock
    else
      let* b := load s block in
      if skips alignedSize b
      then bestFit_loop fuel' s alignedSize (next b) bestFitBlock
      else if size b =? alignedSize then Done block
      else
        let* smaller :=
          (if bestFitBlock =? nullptr then Done true
           else let* best := load s bestFitBlock in
                Done (size b <? size best)) in
        if (smaller : bool)
        then bestFit_loop fuel' s alignedSize (next b) block
        else bestFit_loop fuel' s alignedSize block bestFitBlock
  end.

Definition bestFit (fuel : nat) (alignedSize : Z) (s : Heap) : outcome Z :=
  bestFit_loop fuel s alignedSize (heapStart s) nullptr.

(** [Block* findBlock(size_t alignedSize)] *)
Definition findBlock (fuel : nat) (alignedSize : Z) (s : Heap)
  : outcome (Heap * Z) :=
  match searchMode s with
  | FirstFit => let* block := firstFit fuel alignedSize s in Done (s, block)
  | NextFit => nextFit fuel alignedSize s
  | BestFit => let* block := bestFit fuel alignedSize s in Done (s, block)
  end.

(** ** Splitting (defined by the source, called by nothing) *)

(** [Block* split(Block* block, size_t size)]: computes the size of the
    remainder from [block->size] and returns [nullptr]. *)
Definition split (block sz : Z) (s : Heap) : outcome Z :=
  let* b := load s block in
  let newBlockSize := wrap (size b - allocSize sz) in
  Done nullptr.

(** [bool canSplit(Block* block, size_t size)] *)
Definition canSplit (block sz : Z) (s : Heap) : outcome bool :=
  let* b := load s block in Done (sz <? size b).

(** [Block* listAllocate(Block* block, size_t size)] *)
Definition listAllocate (block sz : Z) (s : Heap) : outcome (Heap * Z) :=
  let* c := canSplit block sz s in
  let* block := (if (c : bool) then split block sz s else Done block) in
  let* s := set_used block true s in
  let* s := set_size block sz s in
  Done (s, block).

(** ** The interface *)

(** [word_t* alloc(size_t size)].  The two [printf] calls only read
    fields of a block that the following statements write. *)
Definition alloc (fuel : nat) (sz : Z) (s : Heap) : outcome (Heap * Z) :=
  let alignedSize := align sz in
  let* (s, block) := findBlock fuel alignedSize s in
  if negb (block =? nullptr) then
    let* s := set_used block true s in
    Done (s, data_of block)
  else
    let '(s, block) := requestFromOS alignedSize s in
    let* s := set_size block alignedSize s in
    let* s := set_used block true s in
    let s := if heapStart s =? nullptr then set_heapStart block s else s in
    let* s := (if negb (top s =? nullptr) then set_next (top s) block s
               else Done s) in
    let s := set_top block s in
    Done (s, data_of block).

(** [void free(word_t* data)] *)
Definition free (data : Z) (s : Heap) : outcome Heap :=
  let block := getHeader data in
  set_used block false s.

(** ** The two earlier versions of [alloc]

    The exercises before the search modes have the same header, the same
    [align], [allocSize], [requestFromOS], [getHeader] and [free], no
    [searchStart] and no [searchMode]; they differ in [alloc]. *)

Module Sequential.

(** [word_t* alloc(size_t size)] of the first exercise: every request
    moves the break; the statement [block->used = true] is commented
    out. *)
Definition alloc (sz : Z) (s : Heap) : outcome (Heap * Z) :=
  let alignedSize := align sz in
  let '(s, block) := requestFromOS alignedSize s in
  let* s := set_size block alignedSize s in
  let s := if heapStart s =? nullptr then set_heapStart block s else s in
  let* s := (if negb (top s =? nullptr) then set_next (top s) block s
             else Done s) in
  let s := set_top block s in
  Done (s, data_of block).

End Sequential.

Module Reuse.

(** [Block* findBlock(size_t alignedSize)] of the second exercise: the
    loop that the last version calls [firstFit]. *)
Definition findBlock (fuel : nat) (alignedSize : Z) (s : Heap) : outcome Z :=
  firstFit_loop fuel s alignedSize (heapStart s).

(** [word_t* alloc(size_t size)] of the second exercise: a block that the
    search finds is returned as it is. *)
Definition alloc (fuel : nat) (sz : Z) (s : Heap) : outcome (Heap * Z) :=
  let alignedSize := align sz in
  let* block := findBlock fuel alignedSize s in
  if negb (block =? nullptr) then
    Done (s, data_of block)
  else
    let '(s, block) := requestFromOS alignedSize s in
    let* s := set_size block alignedSize s in
    let* s := set_used block true s in
    let s := if heapStart s =? nullptr then set_heapStart block s else s in
    let* s := (if negb (top s =? nullptr) then set_next (top s) block s
               else Done s) in
    let s := set_top block s in
    Done (s, data_of block).

End Reuse.

(** ** Chains

    [lseg m a l z]: following [next] from [a] visits exactly the headers
    [l], in this order, and then arrives at [z].  The chain of a heap is
    the segment from [heapStart] to [nullptr]. *)

Inductive lseg (m : gmap Z Block) : Z -> list Z -> Z -> Prop :=
| lseg_nil z : lseg m z [] z
| lseg_cons a b l z :
    a <> nullptr ->
    m !! a = Some b ->
    lseg m (next b) l z ->
    lseg m a (a :: l) z.

Definition chain (s : Heap) (l : list Z) : Prop :=
  lseg (mem s) (heapStart s) l nullptr.

(** The chain as a list, computed: [None] when it leaves the heap or is
    longer than the fuel. *)
Fixpoint walk (fuel : nat) (m : gmap Z Block) (a : Z) : option (list Z) :=
  if a =? nullptr then Some []
  else
    match fuel with
    | O => None
    | S fuel' =>
      match m !! a with
      | None => None
      | Some b => option_map (cons a) (walk fuel' m (next b))
      end
    end.

(** The view of the chain that the comments of [main] draw:
    [[size, used]] per block. *)
Definition picture (s : Heap) (l : list Z) : list (option (Z * bool)) :=
  map (fun a => option_map (fun b => (size b, used b)) (mem s !! a)) l.

(** ** Well-formed heaps

    What every state reached through [init], [alloc] and [free] satisfies,
    with [l] the chain: [top] is the last block of the chain, the cursor
    is unset or on a block of the chain, every header lies between the
    base and the break, and the base is not the null address. *)

Record wf (s : Heap) (l : list Z) : Prop := mk_wf {
  wf_chain : chain s l;
  wf_top : top s = List.last l nullptr;
  wf_cursor : searchStart s = nullptr \/ searchStart s ∈ l;
  wf_bounds : forall a, is_Some (mem s !! a) ->
                break_base s <= a /\ a + header_bytes <= program_break s;
  wf_break : 0 < break_base s /\
             break_base s <= program_break s <= break_limit s
}.

(** The states of a run: the statics as they are initialised, then any
    sequence of calls of the interface that return. *)
Inductive reachable : Heap -> Prop :=
| reach_initial base limit :
    0 < base <= limit -> reachable (initial base limit)
| reach_init mode s :
    reachable s -> reachable (init mode s)
| reach_alloc fuel sz s s' p :
    reachable s -> alloc fuel sz s = Done (s', p) -> reachable s'
| reach_free data s s' :
    reachable s -> free data s = Done s' -> reachable s'.

(** The runs that the embedding follows word for word: [init] on the
    statics of the start, then calls of [alloc] that return, for requests
    whose footprint [align size + 24] stays under [2^63] (it neither wraps
    as a [size_t] nor turns negative as the [intptr_t] that [sbrk] takes),
    and calls of [free] on the handle of a block. *)
Inductive session : Heap -> Prop :=
| session_start mode base limit :
    0 < base <= limit -> session (init mode (initial base limit))
| session_alloc fuel sz s s' p :
    session s -> 0 <= sz <= 2 ^ 63 - 32 ->
    alloc fuel sz s = Done (s', p) -> session s'
| session_free data s s' :
    session s -> free data s = Done s' -> session s'.

(** ** What the searches are meant to compute

    These follow the description of the strategies, not the loops; the
    theorems below compare the loops with them. *)

(** A block that a search may return: free and large enough. *)
Definition fits (s : Heap) (alignedSize : Z) (a : Z) : bool :=
  match mem s !! a with
  | Some b => negb (skips alignedSize b)
  | None => false
  end.

(** The part of a chain before the cursor [c], and the part from it on. *)
Fixpoint upto (c : Z) (l : list Z) : list Z :=
  match l with
  | [] => []
  | a :: l' => if a =? c then [] else a :: upto c l'
  end.

Fixpoint from (c : Z) (l : list Z) : list Z :=
  match l with
  | [] => []
  | a :: l' => if a =? c then l else from c l'
  end.

(** The order in which next-fit looks at the chain [l]: from the head
    when the cursor is unset, else from the cursor to the end and then
    from the head to the block before the cursor. *)
Definition scan_order (s : Heap) (l : list Z) : list Z :=
  if searchStart s =? nullptr then l
  else from (searchStart s) l ++ upto (searchStart s) l.

(** What next-fit answers when [o] is the first fitting block of its
    scan: the block, with the cursor moved to it, or [nullptr]. *)
Definition nextFit_result (s : Heap) (o : option Z) : outcome (Heap * Z) :=
  match o with
  | Some block => Done (set_searchStart block s, block)
  | None => Done (s, nullptr)
  end.

(** ** States that the calls of [main] reach

    The break starts at 4096 and may grow to 65536.  Each state is written
    out; the replays that open the second part run the calls that lead
    to it. *)

Definition fresh (mode : SearchMode) : Heap :=
  init mode (initial 4096 65536).

(** [p = alloc(16)] *)
Definition one_used_block : Heap :=
  mkHeap {[ 4096 := mkBlock 16 true 0 ]}
         4096 4096 0 FirstFit 4136 4096 65536.

(** [p = alloc(16); free(p)] *)
Definition one_free_block : Heap :=
  mkHeap {[ 4096 := mkBlock 16 false 0 ]}
         4096 4096 0 FirstFit 4136 4096 65536.

(** [a = alloc(16); b = alloc(32); free(b)]: [a] is 4120, [b] is 4160. *)
Definition used_then_free : Heap :=
  mkHeap (<[ 4096 := mkBlock 16 true 4136 ]>
            {[ 4136 := mkBlock 32 false 0 ]})
         4096 4136 0 FirstFit 4192 4096 65536.

(** The next-fit test of [main] after [o3 = alloc(16)]: three blocks of 8
    bytes, then the blocks of [o1] (handle 4216, taken again by [o3]) and
    [o2] (handle 4256, free); the cursor is on the block of [o3]. *)
Definition next_fit_after_o3 : Heap :=
  mkHeap (<[ 4096 := mkBlock 8 true 4128 ]>
         (<[ 4128 := mkBlock 8 true 4160 ]>
         (<[ 4160 := mkBlock 8 true 4192 ]>
         (<[ 4192 := mkBlock 16 true 4232 ]>
            {[ 4232 := mkBlock 16 false 0 ]}))))
         4096 4232 4192 NextFit 4272 4096 65536.

(** [a = alloc(32); b = alloc(64); free(a); free(b)] in best-fit mode. *)
Definition two_free_blocks : Heap :=
  mkHeap (<[ 4096 := mkBlock 32 false 4152 ]>
            {[ 4152 := mkBlock 64 false 0 ]})
         4096 4152 0 BestFit 4240 4096 65536.

(** The best-fit test of [main] before its last call: [alloc(8)],
    [z1 = alloc(64)], [alloc(8)], [z2 = alloc(16)], [free(z2)],
    [free(z1)], [z3 = alloc(16)].  The comment in [main] draws it as
    [[8, 1], [64, 0], [8, 1], [16, 1]]. *)
Definition best_fit_before_last : Heap :=
  mkHeap (<[ 4096 := mkBlock 8 true 4128 ]>
         (<[ 4128 := mkBlock 64 false 4216 ]>
         (<[ 4216 := mkBlock 8 true 4248 ]>
            {[ 4248 := mkBlock 16 true 0 ]})))
         4096 4248 0 BestFit 4288 4096 65536.

(** [p = alloc(16)] with a break that cannot move any further. *)
Definition exhausted : Heap :=
  mkHeap {[ 4096 := mkBlock 16 true 0 ]}
         4096 4096 0 FirstFit 4136 4096 4136.

(** ** Layout of the region

    [size_at s a] is [a->size]; [tiles m a l e]: the blocks [l] lie one
    after the other from the address [a] to the address [e], each taking
    its header and [size] bytes of payload. *)

Definition size_at (s : Heap) (a : Z) : Z :=
  match mem s !! a with
  | Some b => size b
  | None => 0
  end.

Fixpoint tiles (m : gmap Z Block) (a : Z) (l : list Z) (e : Z) : Prop :=
  match l with
  | [] => a = e
  | x :: l' =>
    x = a /\
    exists b, m !! x = Some b /\ 0 <= size b /\
              tiles m (a + header_bytes + size b) l' e
  end.

(** A well-formed heap whose chain holds every header and tiles the
    region from the base to the break. *)
Record tidy (s : Heap) (l : list Z) : Prop := mk_tidy {
  tidy_wf : wf s l;
  tidy_tiles : tiles (mem s) (break_base s) l (program_break s);
  tidy_dom : forall a, is_Some (mem s !! a) -> a ∈ l
}.

(** The blocks of [l] that fit a request, in chain order, and lists of
    sizes in which every element is smaller than the one before. *)
Definition fitting (s : Heap) (alignedSize : Z) (l : list Z) : list Z :=
  List.filter (fits s alignedSize) l.

Fixpoint descending (sizes : list Z) : Prop :=
  match sizes with
  | x :: (y :: _) as rest => y < x /\ descending rest
  | _ => True
  end.

(** [s'] has the base, the limit and the mode of [s] and no header that
    [s] has not. *)
Definition keeps_region (s s' : Heap) : Prop :=
  break_base s' = break_base s /\
  break_limit s' = break_limit s /\
  searchMode s' = searchMode s /\
  forall a, is_Some (mem s' !! a) -> is_Some (mem s !! a).

(** * Properties *)

(** ** Replays of [main] and of the other call sequences *)

Example one_used_block_reached :
  alloc 1 16 (fresh FirstFit) = Done (one_used_block, 4120).
Proof. vm_compute. reflexivity. Qed.

Example one_free_block_reached :
  free 4120 one_used_block = Done one_free_block.
Proof. vm_compute. reflexivity. Qed.

Example used_then_free_reached :
  (let* (s, a) := alloc 2 16 (fresh FirstFit) in
   let* (s, b) := alloc 2 32 s in
   let* s := free b s in
   Done (s, a, b)) = Done (used_then_free, 4120, 4160).
Proof. vm_compute. reflexivity. Qed.

Example next_fit_after_o3_reached :
  (let* (s, _) := alloc 5 8 (fresh NextFit) in
   let* (s, _) := alloc 5 8 s in
   let* (s, _) := alloc 5 8 s in
   let* (s, o1) := alloc 5 16 s in
   let* (s, o2) := alloc 5 16 s in
   let* s := free o1 s in
   let* s := free o2 s in
   let* (s, o3) := alloc 5 16 s in
   Done (s, o1, o2, o3)) = Done (next_fit_after_o3, 4216, 4256, 4216).
Proof. vm_compute. reflexivity. Qed.

(** The two assertions of the next-fit test of [main]. *)
Example next_fit_assertions :
  option_map used (mem next_fit_after_o3 !! getHeader 4216) = Some true /\
  searchStart next_fit_after_o3 = getHeader 4216.
Proof. split; vm_compute; reflexivity. Qed.

Example two_free_blocks_reached :
  (let* (s, a) := alloc 2 32 (fresh BestFit) in
   let* (s, b) := alloc 2 64 s in
   let* s := free a s in
   let* s := free b s in
   Done (s, a, b)) = Done (two_free_blocks, 4120, 4176).
Proof. vm_compute. reflexivity. Qed.

Example best_fit_before_last_reached :
  (let* (s, _) := alloc 4 8 (fresh BestFit) in
   let* (s, z1) := alloc 4 64 s in
   let* (s, _) := alloc 4 8 s in
   let* (s, z2) := alloc 4 16 s in
   let* s := free z2 s in
   let* s := free z1 s in
   let* (s, z3) := alloc 4 16 s in
   Done (s, z1, z2, z3)) = Done (best_fit_before_last, 4152, 4272, 4272).
Proof. vm_compute. reflexivity. Qed.

Example best_fit_before_last_picture :
  picture best_fit_before_last [4096; 4128; 4216; 4248]
  = [Some (8, true); Some (64, false); Some (8, true); Some (16, true)].
Proof. vm_compute. reflexivity. Qed.

Example exhausted_reached :
  alloc 1 16 (init FirstFit (initial 4096 4136)) = Done (exhausted, 4120).
Proof. vm_compute. reflexivity. Qed.

Example align_examples :
  map align [0; 1; 7; 8; 9; 15; 16; 17] = [0; 8; 8; 8; 16; 16; 16; 24].
Proof. reflexivity. Qed.

(** ** Header and payload *)

Lemma getHeader_of_payload (block : Z) : getHeader (data_of block) = block.
Proof.
  unfold getHeader, data_of, offsetof_data, sizeof_data, sizeof_Block. lia.
Qed.

(** C9.  The payload of every block starts [offsetof_data] bytes after its
    header, whatever the block; [getHeader] subtracts that same offset
    from a payload address; so [getHeader] undoes [block->data]: the
    header of the payload of a block is that block. *)
Theorem getHeader_data_of (block data : Z) :
  data_of block - block = offsetof_data /\
  getHeader data = data - offsetof_data /\
  getHeader (data_of block) = block.
Proof.
  split; [unfold data_of; lia |].
  split; [| apply getHeader_of_payload].
  unfold getHeader, offsetof_data, sizeof_data, sizeof_Block. lia.
Qed.

(** ** Alignment *)

Lemma align_mask : wrap (Z.lnot (wrap (sizeof_word_t - 1))) = 2 ^ 64 - 8.
Proof. reflexivity. Qed.

Lemma mask_testbit (i : Z) :
  0 <= i -> Z.testbit (2 ^ 64 - 8) i = (3 <=? i) && (i <? 64).
Proof.
  intros Hi.
  change (2 ^ 64 - 8) with (Z.shiftl (Z.ones 61) 3).
  destruct (Z.leb_spec 3 i) as [H3 | H3]; simpl.
  - rewrite Z.shiftl_spec_high by lia.
    destruct (Z.ltb_spec i 64) as [H64 | H64].
    + apply Z.ones_spec_low; lia.
    + apply Z.ones_spec_high; lia.
  - apply Z.shiftl_spec_low; lia.
Qed.

Lemma land_mask (x : Z) :
  0 <= x < 2 ^ 64 -> Z.land x (2 ^ 64 - 8) = 8 * (x / 8).
Proof.
  intros Hx.
  transitivity (Z.shiftl (Z.shiftr x 3) 3).
  - apply Z.bits_inj'; intros i Hi.
    rewrite Z.land_spec, mask_testbit by assumption.
    destruct (Z.leb_spec 3 i) as [H3 | H3].
    + rewrite Z.shiftl_spec_high, Z.shiftr_spec by lia.
      replace (i - 3 + 3) with i by lia.
      destruct (Z.ltb_spec i 64) as [H64 | H64]; simpl.
      * apply andb_true_r.
      * rewrite andb_false_r. symmetry.
        destruct (Z.eq_dec x 0) as [-> | Hne]; [apply Z.bits_0 |].
        apply Z.bits_above_log2; [lia |].
        apply Z.log2_lt_pow2; [lia |].
        assert (2 ^ 64 <= 2 ^ i) by (apply Z.pow_le_mono_r; lia). lia.
    + rewrite Z.shiftl_spec_low by lia. apply andb_false_r.
  - rewrite Z.shiftl_mul_pow2, Z.shiftr_div_pow2 by lia.
    change (2 ^ 3) with 8. lia.
Qed.

Lemma align_div (n : Z) : align n = 8 * (((n + 7) mod 2 ^ 64) / 8).
Proof.
  unfold align. rewrite align_mask.
  assert (Hw : wrap (wrap (n + sizeof_word_t) - 1) = (n + 7) mod 2 ^ 64).
  { unfold wrap, sizeof_word_t. rewrite Zminus_mod_idemp_l.
    f_equal. lia. }
  rewrite Hw. apply land_mask. apply Z.mod_pos_bound. lia.
Qed.

(** C7, as the specification words it, fails: for the largest [size_t]
    the sum wraps, [align] answers 0 and nothing is rejected; the
    request is served with a block of size 0. *)
Lemma align_wraps_near_the_maximum :
  align (2 ^ 64 - 1) = 0 /\
  alloc 1 (2 ^ 64 - 1) (fresh FirstFit)
  = Done (mkHeap {[ 4096 := mkBlock 0 true 0 ]}
                 4096 4096 0 FirstFit 4120 4096 65536, 4120).
Proof. split; vm_compute; reflexivity. Qed.

(** C7 (amended).  For every [size_t] value [n] up to [2^64 - 8], [align n]
    is the least multiple of the word size that is at least [n], and [n]
    itself when [n] is a multiple already.  For the seven values above
    [2^64 - 8] nothing is detected: the sum wraps and [align n] is [0]. *)
Theorem align_rounds_or_wraps (n : Z) :
  0 <= n < 2 ^ 64 ->
  (n <= 2 ^ 64 - 8 ->
     align n mod sizeof_word_t = 0 /\
     n <= align n < n + sizeof_word_t /\
     (n mod sizeof_word_t = 0 -> align n = n)) /\
  (2 ^ 64 - 8 < n -> align n = 0).
Proof.
  intros Hn. rewrite align_div. unfold sizeof_word_t. split.
  - intros Hle. rewrite (Z.mod_small (n + 7)) by lia.
    repeat split.
    + rewrite Z.mul_comm. apply Z_mod_mult.
    + Z.div_mod_to_equations. lia.
    + Z.div_mod_to_equations. lia.
    + intros Hm. Z.div_mod_to_equations. lia.
  - intros Hgt.
    replace ((n + 7) mod 2 ^ 64) with (n + 7 - 2 ^ 64).
    + Z.div_mod_to_equations. lia.
    + apply Z.mod_unique with (q := 1); lia.
Qed.

Lemma align_rounds_or_wraps_witness :
  align 9 mod sizeof_word_t = 0 /\ 9 <= align 9 < 9 + sizeof_word_t.
Proof.
  destruct (align_rounds_or_wraps 9 ltac:(lia)) as [Hlow _].
  destruct (Hlow ltac:(lia)) as (Hm & Hb & _).
  split; assumption.
Defined.

(** ** Segments and chains *)

Lemma lseg_nil_inv m a z : lseg m a [] z -> a = z.
Proof. inversion 1; reflexivity. Qed.

Lemma lseg_cons_inv m a x l z :
  lseg m a (x :: l) z ->
  x = a /\ a <> nullptr /\ exists b, m !! a = Some b /\ lseg m (next b) l z.
Proof. inversion 1; subst. eauto. Qed.

Lemma lseg_from_null m l z : lseg m nullptr l z -> l = [] /\ z = nullptr.
Proof. inversion 1; subst; [split; reflexivity | congruence]. Qed.

Lemma lseg_app_inv m l1 : forall a l2 z,
  lseg m a (l1 ++ l2) z ->
  exists mid, lseg m a l1 mid /\ lseg m mid l2 z.
Proof.
  induction l1 as [| x l1 IH]; intros a l2 z H; simpl in H.
  - exists a. split; [constructor | assumption].
  - apply lseg_cons_inv in H as (-> & Ha & b & Hb & Hl).
    destruct (IH _ _ _ Hl) as (mid & H1 & H2).
    exists mid. split; [econstructor; eassumption | assumption].
Qed.

Lemma lseg_functional m l1 : forall a l2,
  lseg m a l1 nullptr -> lseg m a l2 nullptr -> l1 = l2.
Proof.
  induction l1 as [| x l1 IH]; intros a l2 H1 H2.
  - apply lseg_nil_inv in H1. subst a.
    apply lseg_from_null in H2 as [-> _]. reflexivity.
  - apply lseg_cons_inv in H1 as (-> & Ha & b & Hb & Hl).
    destruct l2 as [| y l2].
    + apply lseg_nil_inv in H2. congruence.
    + apply lseg_cons_inv in H2 as (-> & _ & b' & Hb' & Hl').
      f_equal. apply (IH (next b)); [assumption | congruence].
Qed.

(** A chain that ends in [nullptr] visits no header twice. *)
Lemma lseg_NoDup m l : forall a, lseg m a l nullptr -> NoDup l.
Proof.
  induction l as [| x l IH]; intros a H; [constructor |].
  apply lseg_cons_inv in H as (-> & Ha & b & Hb & Hl).
  apply NoDup_cons. split; [| eapply IH; eassumption].
  intros Hin. apply list_elem_of_split in Hin as (l1 & l2 & ->).
  destruct (lseg_app_inv _ _ _ _ _ Hl) as (mid & _ & H2).
  pose proof H2 as H2'.
  apply lseg_cons_inv in H2' as (Hm & _). subst mid.
  assert (Hwhole : lseg m a (a :: l1 ++ a :: l2) nullptr)
    by (econstructor; eassumption).
  pose proof (lseg_functional _ _ _ _ H2 Hwhole) as E.
  apply (f_equal length) in E. simpl in E. rewrite length_app in E.
  simpl in E. lia.
Qed.

Lemma walk_sound m fuel : forall a l,
  walk fuel m a = Some l -> lseg m a l nullptr.
Proof.
  induction fuel as [| fuel IH]; intros a l H; simpl in H.
  - destruct (Z.eqb_spec a nullptr) as [-> | Hne]; [| discriminate].
    injection H as <-. constructor.
  - destruct (Z.eqb_spec a nullptr) as [-> | Hne].
    + injection H as <-. constructor.
    + destruct (m !! a) as [b |] eqn:Hb; [| discriminate].
      destruct (walk fuel m (next b)) as [l' |] eqn:Hw; [| discriminate].
      injection H as <-. econstructor; eauto.
Qed.

Lemma upto_from_split c pre post :
  c ∉ pre -> upto c (pre ++ c :: post) = pre /\
             from c (pre ++ c :: post) = c :: post.
Proof.
  induction pre as [| x pre IH]; intros Hc; simpl.
  - rewrite Z.eqb_refl. split; reflexivity.
  - apply not_elem_of_cons in Hc as [Hx Hpre].
    destruct (Z.eqb_spec x c) as [-> | _]; [congruence |].
    destruct (IH Hpre) as [-> ->]. split; reflexivity.
Qed.

(** ** First fit *)

(** [firstFit] returns the first block of the chain that fits, or
    [nullptr], after at most one iteration per block and one more. *)
Lemma firstFit_loop_scan (s : Heap) (alignedSize : Z) (l : list Z) :
  forall a fuel,
    lseg (mem s) a l nullptr ->
    (length l < fuel)%nat ->
    firstFit_loop fuel s alignedSize a
    = Done (default nullptr (find (fits s alignedSize) l)).
Proof.
  induction l as [| x l IH]; intros a fuel Hl Hf;
    (destruct fuel as [| fuel]; [simpl in Hf; lia |]); simpl.
  - apply lseg_nil_inv in Hl. subst a. reflexivity.
  - apply lseg_cons_inv in Hl as (-> & Ha & b & Hb & Hl).
    destruct (Z.eqb_spec a nullptr) as [E | _]; [congruence |].
    unfold load, fits. rewrite Hb. simpl.
    destruct (skips alignedSize b); simpl; [| reflexivity].
    apply IH; [assumption | simpl in Hf; lia].
Qed.

(** ** Next fit *)

Section NextFitScan.

Variable s : Heap.
Variable alignedSize : Z.

Lemma nextFit_loop_step fuel a b :
  mem s !! a = Some b ->
  nextFit_loop (S fuel) s alignedSize a =
  if skips alignedSize b then
    if next b =? nullptr then
      if searchStart s =? nullptr then Done (s, nullptr)
      else if heapStart s =? searchStart s then Done (s, nullptr)
           else nextFit_loop fuel s alignedSize (heapStart s)
    else if next b =? searchStart s then Done (s, nullptr)
         else nextFit_loop fuel s alignedSize (next b)
  else Done (set_searchStart a s, a).
Proof. intros Hb. simpl. unfold load. rewrite Hb. reflexivity. Qed.

Lemma find_fits_cons a b l :
  mem s !! a = Some b ->
  find (fits s alignedSize) (a :: l) =
  if skips alignedSize b then find (fits s alignedSize) l else Some a.
Proof.
  intros Hb. simpl. unfold fits at 1. rewrite Hb.
  destruct (skips alignedSize b); reflexivity.
Qed.

(** Cursor unset: one pass from the block [a] to the end of the chain. *)
Lemma nextFit_loop_unset :
  searchStart s = nullptr ->
  forall l a fuel,
    lseg (mem s) a (a :: l) nullptr ->
    (length (a :: l) <= fuel)%nat ->
    nextFit_loop fuel s alignedSize a
    = nextFit_result s (find (fits s alignedSize) (a :: l)).
Proof.
  intros Hc. induction l as [| x l IH]; intros a fuel Hl Hf;
    (destruct fuel as [| fuel]; [simpl in Hf; lia |]);
    apply lseg_cons_inv in Hl as (_ & Ha & b & Hb & Hl);
    rewrite (nextFit_loop_step _ _ _ Hb), (find_fits_cons _ _ _ Hb);
    destruct (skips alignedSize b); try reflexivity.
  - apply lseg_nil_inv in Hl. rewrite Hl, Hc. reflexivity.
  - pose proof Hl as Hl'.
    apply lseg_cons_inv in Hl' as (-> & Hx & _).
    destruct (Z.eqb_spec (next b) nullptr) as [E | _]; [congruence |].
    rewrite Hc.
    destruct (Z.eqb_spec (next b) nullptr) as [E | _]; [congruence |].
    apply IH; [assumption | simpl in *; lia].
Qed.

Variable c : Z.
Hypothesis cursor : searchStart s = c.
Hypothesis cursor_set : c <> nullptr.

(** After the wrap: from [a] up to the block before the cursor. *)
Lemma nextFit_loop_before_cursor :
  forall l a fuel,
    lseg (mem s) a (a :: l) c ->
    c ∉ l ->
    (length (a :: l) <= fuel)%nat ->
    nextFit_loop fuel s alignedSize a
    = nextFit_result s (find (fits s alignedSize) (a :: l)).
Proof.
  induction l as [| x l IH]; intros a fuel Hl Hc Hf;
    (destruct fuel as [| fuel]; [simpl in Hf; lia |]);
    apply lseg_cons_inv in Hl as (_ & Ha & b & Hb & Hl);
    rewrite (nextFit_loop_step _ _ _ Hb), (find_fits_cons _ _ _ Hb);
    destruct (skips alignedSize b); try reflexivity.
  - apply lseg_nil_inv in Hl. rewrite Hl, cursor.
    destruct (Z.eqb_spec c nullptr) as [E | _]; [congruence |].
    rewrite Z.eqb_refl. reflexivity.
  - pose proof Hl as Hl'.
    apply lseg_cons_inv in Hl' as (-> & Hx & _).
    apply not_elem_of_cons in Hc as [Hne Hc].
    destruct (Z.eqb_spec (next b) nullptr) as [E | _]; [congruence |].
    rewrite cursor.
    destruct (Z.eqb_spec (next b) c) as [E | _]; [congruence |].
    apply IH; [assumption | assumption | simpl in *; lia].
Qed.

Variable pre : list Z.
Hypothesis head_to_cursor : lseg (mem s) (heapStart s) pre c.
Hypothesis cursor_not_before : c ∉ pre.

(** Before the wrap: from [a] to the end of the chain, then around. *)
Lemma nextFit_loop_from_cursor :
  forall l a fuel,
    lseg (mem s) a (a :: l) nullptr ->
    c ∉ l ->
    (length (a :: l) + length pre <= fuel)%nat ->
    nextFit_loop fuel s alignedSize a
    = nextFit_result s (find (fits s alignedSize) ((a :: l) ++ pre)).
Proof.
  induction l as [| x l IH]; intros a fuel Hl Hc Hf;
    (destruct fuel as [| fuel]; [simpl in Hf; lia |]);
    apply lseg_cons_inv in Hl as (_ & Ha & b & Hb & Hl);
    rewrite (nextFit_loop_step _ _ _ Hb);
    change ((a :: ?l) ++ pre) with (a :: (l ++ pre));
    rewrite (find_fits_cons _ _ _ Hb);
    destruct (skips alignedSize b); try reflexivity.
  - apply lseg_nil_inv in Hl. rewrite Hl, cursor. simpl.
    destruct (Z.eqb_spec c nullptr) as [E | _]; [congruence |].
    destruct pre as [| p pre'].
    + apply lseg_nil_inv in head_to_cursor. rewrite head_to_cursor.
      rewrite Z.eqb_refl. reflexivity.
    + pose proof head_to_cursor as Hp.
      apply lseg_cons_inv in Hp as (-> & _).
      apply not_elem_of_cons in cursor_not_before as [Hne Hnot].
      destruct (Z.eqb_spec (heapStart s) c) as [E | _]; [congruence |].
      apply nextFit_loop_before_cursor;
        [assumption | assumption | simpl in *; lia].
  - pose proof Hl as Hl'.
    apply lseg_cons_inv in Hl' as (-> & Hx & _).
    apply not_elem_of_cons in Hc as [Hne Hc].
    destruct (Z.eqb_spec (next b) nullptr) as [E | _]; [congruence |].
    rewrite cursor.
    destruct (Z.eqb_spec (next b) c) as [E | _]; [congruence |].
    apply IH; [assumption | assumption | simpl in *; lia].
Qed.

End NextFitScan.

Lemma nextFit_scan (s : Heap) (l : list Z) (alignedSize : Z) (fuel : nat) :
  chain s l ->
  searchStart s = nullptr \/ searchStart s ∈ l ->
  (length l <= fuel)%nat ->
  nextFit fuel alignedSize s
  = nextFit_result s (find (fits s alignedSize) (scan_order s l)).
Proof.
  intros Hl Hc Hf. unfold chain in Hl. unfold nextFit, scan_order.
  destruct (Z.eqb_spec (searchStart s) nullptr) as [E | Hset].
  - destruct l as [| a l].
    + apply lseg_nil_inv in Hl. rewrite Hl. reflexivity.
    + pose proof Hl as Hl'. apply lseg_cons_inv in Hl' as (-> & Ha & _).
      destruct (Z.eqb_spec (heapStart s) nullptr) as [E' | _]; [congruence |].
      apply nextFit_loop_unset; assumption.
  - destruct Hc as [Hc | Hc]; [congruence |].
    pose proof (lseg_NoDup _ _ _ Hl) as Hnd.
    apply list_elem_of_split in Hc as (pre & post & ->).
    apply NoDup_app in Hnd as (_ & Hpre & Hpost).
    assert (Hnpre : searchStart s ∉ pre).
    { intros Hin. apply (Hpre _ Hin). left. }
    apply NoDup_cons in Hpost as [Hnpost _].
    destruct (upto_from_split _ _ post Hnpre) as [-> ->].
    destruct (lseg_app_inv _ _ _ _ _ Hl) as (mid & H1 & H2).
    pose proof H2 as H2'. apply lseg_cons_inv in H2' as (E & _).
    subst mid.
    destruct (Z.eqb_spec (searchStart s) nullptr) as [E' | _]; [congruence |].
    apply nextFit_loop_from_cursor with (c := searchStart s);
      try assumption; try reflexivity.
    rewrite length_app in Hf. simpl in *. lia.
Qed.

Lemma from_head c l : c ∈ l -> from c l = c :: tail (from c l).
Proof.
  induction l as [| x l IH]; intros Hc.
  - inversion Hc.
  - simpl. destruct (Z.eqb_spec x c) as [-> | Hne]; [reflexivity |].
    apply elem_of_cons in Hc as [E | Hc]; [congruence | auto].
Qed.

(** C6.  On a heap whose chain is [l] and whose cursor is unset or on a
    block of the chain, [nextFit] returns within [length l] iterations,
    so it looks at no block twice.  It answers with the first block that
    fits in the scan order: from the cursor to the end of the chain and
    then, around, from the head to the block before the cursor (from the
    head to the end when the cursor is unset).  With such a block it
    returns it, and the state that it leaves has [searchStart] equal to
    that block and every other component as before; without, it returns
    [nullptr] and leaves the state as it was.  When the block under the
    cursor is in use, as it is after the allocation that put the cursor
    there, the first candidate is the block after the cursor, not the
    head. *)
Theorem nextFit_scans_from_cursor
    (s : Heap) (l : list Z) (alignedSize : Z) (fuel : nat) :
  chain s l ->
  searchStart s = nullptr \/ searchStart s ∈ l ->
  (length l <= fuel)%nat ->
  nextFit fuel alignedSize s
  = match find (fits s alignedSize) (scan_order s l) with
    | Some block =>
        Done (mkHeap (mem s) (heapStart s) (top s) block (searchMode s)
                     (program_break s) (break_base s) (break_limit s),
              block)
    | None => Done (s, nullptr)
    end /\
  (forall b,
     searchStart s <> nullptr ->
     mem s !! searchStart s = Some b ->
     used b = true ->
     nextFit fuel alignedSize s
     = match find (fits s alignedSize)
                  (tail (from (searchStart s) l) ++ upto (searchStart s) l)
       with
       | Some block =>
           Done (mkHeap (mem s) (heapStart s) (top s) block (searchMode s)
                        (program_break s) (break_base s) (break_limit s),
                 block)
       | None => Done (s, nullptr)
       end).
Proof.
  intros Hl Hc Hf.
  pose proof (nextFit_scan s l alignedSize fuel Hl Hc Hf) as Hscan.
  split; [exact Hscan |].
  intros b Hset Hb Hu. rewrite Hscan. unfold scan_order.
  destruct (Z.eqb_spec (searchStart s) nullptr) as [E | _]; [congruence |].
  destruct Hc as [Hc | Hc]; [congruence |].
  rewrite (from_head _ _ Hc) at 1.
  change ((?a :: ?x) ++ ?y) with (a :: (x ++ y)).
  rewrite (find_fits_cons _ _ _ _ _ Hb). unfold skips. rewrite Hu.
  reflexivity.
Qed.

(** In the next-fit test of [main], the call after [o3] lands on the block
    of [o2] (header 4232), which follows the cursor, and moves the cursor
    from 4192 to 4232. *)
Lemma nextFit_scans_from_cursor_witness :
  searchStart next_fit_after_o3 = 4192 /\
  nextFit 5 16 next_fit_after_o3
  = Done (mkHeap (mem next_fit_after_o3) 4096 4232 4232 NextFit
                 4272 4096 65536, 4232).
Proof.
  split; [reflexivity |].
  destruct (nextFit_scans_from_cursor next_fit_after_o3
              [4096; 4128; 4160; 4192; 4232] 16 5) as [Hscan _].
  - apply walk_sound with (fuel := 5%nat). vm_compute. reflexivity.
  - right. vm_compute. repeat constructor.
  - simpl. lia.
  - rewrite Hscan. vm_compute. reflexivity.
Defined.

(** ** Best fit *)

(** Where the scan of [bestFit] stops advancing: at a free block that
    fits, is not exact and is not smaller than the best one so far. *)
Lemma bestFit_loop_stuck (s : Heap) (alignedSize block best : Z) (b bb : Block) :
  block <> nullptr -> best <> nullptr ->
  mem s !! block = Some b -> mem s !! best = Some bb ->
  skips alignedSize b = false ->
  size b <> alignedSize ->
  size bb <= size b ->
  forall fuel, bestFit_loop fuel s alignedSize block best = Timeout.
Proof.
  intros Hblock Hbest Hb Hbb Hskip Hne Hle.
  induction fuel as [| fuel IH]; [reflexivity |].
  simpl. unfold load. rewrite Hb, Hbb. simpl. rewrite Hskip.
  destruct (Z.eqb_spec block nullptr) as [E | _]; [congruence |].
  destruct (Z.eqb_spec (size b) alignedSize) as [E | _]; [congruence |].
  destruct (Z.eqb_spec best nullptr) as [E | _]; [congruence |].
  simpl. destruct (Z.ltb_spec (size b) (size bb)) as [E | _]; [lia |].
  exact IH.
Qed.

(** C5 fails on the code.  In [two_free_blocks] the chain holds a free
    block of 32 bytes and then a free block of 64 bytes; both fit a
    request of 16 bytes and the smallest is the first.  [bestFit] takes
    the first as its best so far, reaches the second, which is neither
    exact nor smaller, and never moves again: whatever the fuel, neither
    [bestFit] nor the [alloc(16)] that calls it returns. *)
Theorem bestFit_does_not_return (fuel : nat) :
  fits two_free_blocks 16 4096 = true /\
  fits two_free_blocks 16 4152 = true /\
  walk 2 (mem two_free_blocks) (heapStart two_free_blocks)
    = Some [4096; 4152] /\
  bestFit fuel 16 two_free_blocks = Timeout /\
  alloc fuel 16 two_free_blocks = Timeout.
Proof.
  assert (Hstuck : forall n, bestFit_loop n two_free_blocks 16 4152 4096 = Timeout).
  { apply bestFit_loop_stuck
      with (b := mkBlock 64 false 0) (bb := mkBlock 32 false 4152);
      try (vm_compute; reflexivity); try (vm_compute; discriminate);
      unfold nullptr; lia. }
  assert (Hbest : bestFit fuel 16 two_free_blocks = Timeout).
  { destruct fuel as [| fuel]; [reflexivity |].
    transitivity (bestFit_loop fuel two_free_blocks 16 4152 4096);
      [| apply Hstuck].
    reflexivity. }
  do 3 (split; [vm_compute; reflexivity |]).
  split; [exact Hbest |].
  unfold alloc, findBlock.
  change (searchMode two_free_blocks) with BestFit.
  change (align 16) with 16. rewrite Hbest. reflexivity.
Qed.

(** ** [free] *)

Lemma set_mem_same (s : Heap) : set_mem (mem s) s = s.
Proof. destruct s; reflexivity. Qed.

Lemma free_spec (s : Heap) (data : Z) (b : Block) :
  mem s !! getHeader data = Some b ->
  free data s
  = Done (set_mem (<[getHeader data := mkBlock (size b) false (next b)]> (mem s)) s).
Proof.
  intros Hb. unfold free, set_used, load, store. rewrite Hb. simpl.
  reflexivity.
Qed.

(** Rewriting a header without touching its [next] keeps every segment. *)
Lemma lseg_update (m : gmap Z Block) (p : Z) (b b' : Block) a l z :
  m !! p = Some b -> next b' = next b ->
  lseg m a l z -> lseg (<[p := b']> m) a l z.
Proof.
  intros Hp Hn Hl. induction Hl as [z | a c l z Ha Hc Hl IH].
  - constructor.
  - destruct (decide (a = p)) as [-> | Hne].
    + apply lseg_cons with (b := b'); [assumption | apply lookup_insert_eq |].
      rewrite Hn. congruence.
    + apply lseg_cons with (b := c); [assumption | | assumption].
      rewrite lookup_insert_ne by congruence. assumption.
Qed.

(** C10.  For a handle that resolves to a header of the heap, [free]
    returns and writes [false] into the [used] flag of that block only:
    its [size] and [next], every other block, [heapStart], [top],
    [searchStart], the mode and the break are as before; freeing the same
    handle again returns as well and changes nothing more. *)
Theorem free_clears_used_only (s : Heap) (data : Z) (b : Block) :
  mem s !! getHeader data = Some b ->
  exists s',
    free data s = Done s' /\
    mem s' !! getHeader data = Some (mkBlock (size b) false (next b)) /\
    (forall a, a <> getHeader data -> mem s' !! a = mem s !! a) /\
    heapStart s' = heapStart s /\ top s' = top s /\
    searchStart s' = searchStart s /\ searchMode s' = searchMode s /\
    program_break s' = program_break s /\
    free data s' = Done s'.
Proof.
  intros Hb. eexists. split; [apply free_spec; exact Hb |].
  split; [apply lookup_insert_eq |].
  split; [intros a Ha; simpl; rewrite lookup_insert_ne by congruence; reflexivity |].
  do 5 (split; [reflexivity |]).
  erewrite free_spec by apply lookup_insert_eq. simpl.
  rewrite insert_insert_eq. reflexivity.
Qed.

Lemma free_clears_used_only_witness :
  exists s',
    free 4120 one_used_block = Done s' /\
    mem s' !! getHeader 4120 = Some (mkBlock 16 false 0) /\
    (forall a, a <> getHeader 4120 -> mem s' !! a = mem one_used_block !! a) /\
    heapStart s' = 4096 /\ top s' = 4096 /\
    searchStart s' = 0 /\ searchMode s' = FirstFit /\
    program_break s' = 4136 /\
    free 4120 s' = Done s'.
Proof.
  apply (free_clears_used_only one_used_block 4120 (mkBlock 16 true 0)).
  vm_compute. reflexivity.
Defined.

(** C3, as the specification words it, fails: in [one_free_block] the
    handle 4120 resolves to a block whose [used] is already [false], and
    [free] returns normally ([Done]), with no failure of any kind. *)
Lemma free_twice_is_not_an_error :
  mem one_free_block !! getHeader 4120 = Some (mkBlock 16 false 0) /\
  free 4120 one_free_block = Done one_free_block /\
  free 4120 one_free_block <> Crash.
Proof.
  split; [| split].
  - vm_compute. reflexivity.
  - vm_compute. reflexivity.
  - vm_compute. discriminate.
Qed.

(** C3 (amended).  For every handle whose block already has
    [used == false], [free] returns normally and the whole state
    (chain, links, every field of every block, cursor) is as before. *)
Theorem free_of_free_block_is_identity (s : Heap) (data : Z) (b : Block) :
  mem s !! getHeader data = Some b ->
  used b = false ->
  free data s = Done s.
Proof.
  intros Hb Hu. rewrite (free_spec s data b Hb).
  destruct b as [sz u n]; simpl in *; subst u.
  rewrite insert_id by assumption. rewrite set_mem_same. reflexivity.
Qed.

Lemma free_of_free_block_is_identity_witness :
  free 4120 one_free_block = Done one_free_block.
Proof.
  apply (free_of_free_block_is_identity one_free_block 4120 (mkBlock 16 false 0)).
  - vm_compute. reflexivity.
  - reflexivity.
Defined.

(** C1, as the specification words it, fails: in [used_then_free] the
    block of handle 4120 (size 16) is followed in the chain by the free
    block at 4136 (size 32).  After [free(4120)] the first block still has
    size 16, not [16 + allocSize 32], and still links to 4136; the chain
    still has two blocks; and [alloc(72)], the merged size, is served by
    moving the break, at the old break 4192. *)
Lemma free_does_not_merge :
  exists s',
    free 4120 used_then_free = Done s' /\
    mem s' !! 4096 = Some (mkBlock 16 false 4136) /\
    mem s' !! 4136 = Some (mkBlock 32 false 0) /\
    16 + allocSize 32 = 72 /\
    walk 3 (mem s') (heapStart s') = Some [4096; 4136] /\
    exists s'',
      alloc 3 72 s' = Done (s'', data_of 4192) /\
      program_break s' = 4192 /\
      program_break s'' = 4192 + allocSize 72.
Proof.
  eexists. split; [vm_compute; reflexivity |].
  repeat split; try (vm_compute; reflexivity).
  eexists. split; [vm_compute; reflexivity |].
  split; vm_compute; reflexivity.
Qed.

(** C1 (amended).  For every state in which the block resolved from the
    freed handle links to a next block that is free, [free] merges
    nothing: it returns, and the state that it leaves differs from the
    one before only in the [used] flag of the freed block, now [false].
    The freed block keeps its [size] and its [next], every other block,
    the next one included, is as it was, and the chain is the same list
    of blocks as before. *)
Theorem free_keeps_both_blocks (s : Heap) (data : Z) (b nb : Block) (l : list Z) :
  chain s l ->
  mem s !! getHeader data = Some b ->
  mem s !! next b = Some nb ->
  used nb = false ->
  exists s',
    free data s = Done s' /\
    s' = mkHeap (<[getHeader data := mkBlock (size b) false (next b)]> (mem s))
                (heapStart s) (top s) (searchStart s) (searchMode s)
                (program_break s) (break_base s) (break_limit s) /\
    mem s' !! getHeader data = Some (mkBlock (size b) false (next b)) /\
    (forall a, a <> getHeader data -> mem s' !! a = mem s !! a) /\
    mem s' !! next b = Some nb /\
    chain s' l.
Proof.
  intros Hl Hb Hnb Hu.
  assert (Hnext : <[getHeader data := mkBlock (size b) false (next b)]> (mem s)
                  !! next b = Some nb).
  { destruct (decide (getHeader data = next b)) as [E | E].
    - assert (nb = b) by (rewrite <- E in Hnb; congruence). subst nb.
      rewrite <- E at 1. rewrite lookup_insert_eq.
      destruct b as [sz u n]; simpl in *; subst u. reflexivity.
    - rewrite lookup_insert_ne by assumption. assumption. }
  eexists. split; [apply free_spec; exact Hb |].
  split; [reflexivity |].
  split; [apply lookup_insert_eq |].
  split; [intros a Ha; simpl; apply lookup_insert_ne; congruence |].
  split; [exact Hnext |].
  unfold chain in *. simpl.
  apply lseg_update with (b := b); [assumption | reflexivity | assumption].
Qed.

Lemma free_keeps_both_blocks_witness :
  exists s',
    free 4120 used_then_free = Done s' /\
    s' = mkHeap (<[getHeader 4120 := mkBlock 16 false 4136]>
                   (mem used_then_free))
                4096 4136 0 FirstFit 4192 4096 65536 /\
    mem s' !! getHeader 4120 = Some (mkBlock 16 false 4136) /\
    (forall a, a <> getHeader 4120 ->
               mem s' !! a = mem used_then_free !! a) /\
    mem s' !! 4136 = Some (mkBlock 32 false 0) /\
    chain s' [4096; 4136].
Proof.
  apply (free_keeps_both_blocks used_then_free 4120
           (mkBlock 16 true 4136) (mkBlock 32 false 0) [4096; 4136]).
  - apply walk_sound with (fuel := 2%nat). vm_compute. reflexivity.
  - vm_compute. reflexivity.
  - vm_compute. reflexivity.
  - reflexivity.
Defined.

(** ** What a search leaves behind *)

Lemma firstFit_loop_mapped (s : Heap) (alignedSize : Z) (fuel : nat) :
  forall a r,
    firstFit_loop fuel s alignedSize a = Done r ->
    r <> nullptr -> is_Some (mem s !! r).
Proof.
  induction fuel as [| fuel IH]; intros a r H Hr; [discriminate |].
  simpl in H. destruct (Z.eqb_spec a nullptr) as [-> | Ha].
  - injection H as <-. congruence.
  - unfold load in H. destruct (mem s !! a) as [b |] eqn:Hb; [| discriminate].
    simpl in H. destruct (skips alignedSize b).
    + eapply IH; eassumption.
    + injection H as <-. rewrite Hb. eauto.
Qed.

Lemma nextFit_loop_frame (s : Heap) (alignedSize : Z) (fuel : nat) :
  forall a s1 r,
    nextFit_loop fuel s alignedSize a = Done (s1, r) ->
    (s1 = s /\ r = nullptr) \/
    (s1 = set_searchStart r s /\ is_Some (mem s !! r)).
Proof.
  induction fuel as [| fuel IH]; intros a s1 r H; [discriminate |].
  simpl in H. unfold load in H.
  destruct (mem s !! a) as [b |] eqn:Hb; [| discriminate]. simpl in H.
  destruct (skips alignedSize b).
  - destruct (next b =? nullptr).
    + destruct (searchStart s =? nullptr);
        [injection H as <- <-; left; split; reflexivity |].
      destruct (heapStart s =? searchStart s);
        [injection H as <- <-; left; split; reflexivity |].
      eapply IH; eassumption.
    + destruct (next b =? searchStart s);
        [injection H as <- <-; left; split; reflexivity |].
      eapply IH; eassumption.
  - injection H as <- <-. right. split; [reflexivity |]. rewrite Hb. eauto.
Qed.

Lemma bestFit_loop_mapped (s : Heap) (alignedSize : Z) (fuel : nat) :
  forall a best r,
    best = nullptr \/ is_Some (mem s !! best) ->
    bestFit_loop fuel s alignedSize a best = Done r ->
    r <> nullptr -> is_Some (mem s !! r).
Proof.
  induction fuel as [| fuel IH]; intros a best r Hbest H Hr; [discriminate |].
  simpl in H. destruct (Z.eqb_spec a nullptr) as [-> | Ha].
  - injection H as <-. destruct Hbest; [congruence | assumption].
  - unfold load in H. destruct (mem s !! a) as [b |] eqn:Hb; [| discriminate].
    simpl in H. destruct (skips alignedSize b).
    + eapply IH; eassumption.
    + destruct (size b =? alignedSize).
      * injection H as <-. rewrite Hb. eauto.
      * destruct (best =? nullptr); simpl in H.
        -- eapply IH; [| eassumption | assumption].
           right. rewrite Hb. eauto.
        -- destruct (mem s !! best) as [bb |] eqn:Hbb; [| discriminate].
           simpl in H. destruct (size b <? size bb).
           ++ eapply IH; [| eassumption | assumption].
              right. rewrite Hb. eauto.
           ++ eapply IH; [| eassumption | assumption].
              right. rewrite Hbb. eauto.
Qed.

(** A search changes nothing but, in next-fit mode, the cursor; a block
    that it returns is a header of the heap. *)
Lemma findBlock_frame (fuel : nat) (alignedSize : Z) (s s1 : Heap) (r : Z) :
  findBlock fuel alignedSize s = Done (s1, r) ->
  (s1 = s \/ s1 = set_searchStart r s) /\
  (r <> nullptr -> is_Some (mem s !! r)).
Proof.
  unfold findBlock, firstFit, bestFit, nextFit. intros H.
  destruct (searchMode s).
  - destruct (firstFit_loop fuel s alignedSize (heapStart s)) as [r' | |] eqn:E;
      try discriminate.
    injection H as <- <-. split; [left; reflexivity |].
    eapply firstFit_loop_mapped; eassumption.
  - destruct ((if searchStart s =? nullptr then heapStart s else searchStart s)
              =? nullptr).
    + injection H as <- <-. split; [left; reflexivity | congruence].
    + apply nextFit_loop_frame in H as [[-> ->] | [-> Hm]].
      * split; [left; reflexivity | congruence].
      * split; [right; reflexivity | intros _; exact Hm].
  - destruct (bestFit_loop fuel s alignedSize (heapStart s) nullptr)
      as [r' | |] eqn:E; try discriminate.
    injection H as <- <-. split; [left; reflexivity |].
    eapply bestFit_loop_mapped; [left; reflexivity | eassumption].
Qed.

Lemma findBlock_mem (fuel : nat) (alignedSize : Z) (s s1 : Heap) (r : Z) :
  findBlock fuel alignedSize s = Done (s1, r) ->
  mem s1 = mem s /\ heapStart s1 = heapStart s /\ top s1 = top s /\
  searchMode s1 = searchMode s /\ program_break s1 = program_break s /\
  break_base s1 = break_base s /\ break_limit s1 = break_limit s.
Proof.
  intros H. apply findBlock_frame in H as [[-> | ->] _];
    repeat split; reflexivity.
Qed.

(** ** [alloc] on a block that the search found *)

(** Whatever the size of the candidate, [alloc] hands it out whole: its
    [size] and [next] stay, no header is created, the chain is the same
    list, and the break does not move. *)
Lemma alloc_never_splits (fuel : nat) (sz : Z) (s s1 : Heap) (block : Z) :
  findBlock fuel (align sz) s = Done (s1, block) ->
  block <> nullptr ->
  exists b s',
    mem s !! block = Some b /\
    alloc fuel sz s = Done (s', data_of block) /\
    mem s' = <[block := mkBlock (size b) true (next b)]> (mem s) /\
    heapStart s' = heapStart s /\ top s' = top s /\
    searchStart s' = searchStart s1 /\
    program_break s' = program_break s /\
    (forall l, chain s l -> chain s' l).
Proof.
  intros Hfind Hblock.
  pose proof (findBlock_mem _ _ _ _ _ Hfind) as (Hm & Hh & Ht & _ & Hp & _).
  destruct (findBlock_frame _ _ _ _ _ Hfind) as [_ Hmapped].
  destruct (Hmapped Hblock) as [b Hb].
  exists b. eexists. split; [exact Hb |].
  unfold alloc. rewrite Hfind. simpl.
  destruct (Z.eqb_spec block nullptr) as [E | _]; [congruence |]. simpl.
  unfold set_used, load, store. rewrite Hm, Hb. simpl.
  split; [reflexivity |]. simpl.
  repeat split; try assumption.
  intros l Hl. unfold chain in *. simpl. rewrite Hh.
  apply lseg_update with (b := b); [assumption | reflexivity | assumption].
Qed.

(** C2 fails on the code.  Before the last call of the best-fit test of
    [main] the only free block is the one of 64 bytes at 4128.  The
    request of 16 bytes leaves [64 - 16 = 48] bytes, more than a whole
    [Block]; a split would leave a used block of 16 bytes followed by a
    free one of [64 - allocSize 16 = 24] bytes.  [alloc(16)] returns the
    payload of 4128 with the block still 64 bytes long, and the chain
    still has the four blocks it had: no remainder exists to allocate. *)
Theorem alloc_of_large_block_does_not_split :
  exists s',
    alloc 5 16 best_fit_before_last = Done (s', data_of 4128) /\
    sizeof_Block <= 64 - align 16 /\
    64 - allocSize (align 16) = 24 /\
    walk 5 (mem s') (heapStart s') = Some [4096; 4128; 4216; 4248] /\
    picture s' [4096; 4128; 4216; 4248]
    = [Some (8, true); Some (64, true); Some (8, true); Some (16, true)] /\
    program_break s' = program_break best_fit_before_last /\
    split 4128 16 best_fit_before_last = Done nullptr.
Proof.
  eexists. split; [vm_compute; reflexivity |].
  repeat split; try (vm_compute; reflexivity).
  vm_compute. discriminate.
Qed.

(** ** [alloc] when the break cannot move *)

Lemma requestFromOS_denied (sz : Z) (s : Heap) :
  sbrk (allocSize sz) s = None -> requestFromOS sz s = (s, nullptr).
Proof. intros H. unfold requestFromOS. rewrite H. reflexivity. Qed.

(** When the search finds nothing and [sbrk] denies the request,
    [requestFromOS] returns [nullptr] and the next statement of [alloc],
    [block->size = alignedSize], writes through it. *)
Lemma alloc_denied_crashes (fuel : nat) (sz : Z) (s s1 : Heap) :
  findBlock fuel (align sz) s = Done (s1, nullptr) ->
  sbrk (allocSize (align sz)) s1 = None ->
  mem s !! nullptr = None ->
  alloc fuel sz s = Crash.
Proof.
  intros Hfind Hdenied Hnull.
  pose proof (findBlock_mem _ _ _ _ _ Hfind) as (Hm & _).
  unfold alloc. rewrite Hfind. simpl.
  rewrite (requestFromOS_denied _ _ Hdenied).
  unfold set_size, load. rewrite Hm, Hnull. reflexivity.
Qed.

(** C4 fails on the code.  In [exhausted] the only block is in use and the
    break is at its limit: the search returns [nullptr], [requestFromOS]
    returns [nullptr] and leaves the state alone, and [alloc(8)] does not
    return: it writes [size] through the null pointer. *)
Theorem alloc_out_of_memory_crashes :
  findBlock 2 (align 8) exhausted = Done (exhausted, nullptr) /\
  requestFromOS (align 8) exhausted = (exhausted, nullptr) /\
  alloc 2 8 exhausted = Crash.
Proof.
  assert (Hfind : findBlock 2 (align 8) exhausted = Done (exhausted, nullptr))
    by (vm_compute; reflexivity).
  assert (Hdenied : sbrk (allocSize (align 8)) exhausted = None)
    by (vm_compute; reflexivity).
  split; [exact Hfind |].
  split; [apply requestFromOS_denied; exact Hdenied |].
  apply (alloc_denied_crashes 2 8 exhausted exhausted Hfind Hdenied).
  vm_compute. reflexivity.
Qed.

(** ** [alloc] when the break moves *)

Lemma signed_small (d : Z) : 0 <= d < 2 ^ 63 -> signed d = d.
Proof.
  intros Hd. unfold signed, wrap. rewrite Z.mod_small by lia.
  destruct (Z.ltb_spec d (2 ^ 63)); lia.
Qed.

Lemma set_size_spec (s : Heap) (p v : Z) (b : Block) :
  mem s !! p = Some b ->
  set_size p v s = Done (set_mem (<[p := mkBlock v (used b) (next b)]> (mem s)) s).
Proof. intros Hb. unfold set_size, load, store. rewrite Hb. reflexivity. Qed.

Lemma set_used_spec (s : Heap) (p : Z) (v : bool) (b : Block) :
  mem s !! p = Some b ->
  set_used p v s = Done (set_mem (<[p := mkBlock (size b) v (next b)]> (mem s)) s).
Proof. intros Hb. unfold set_used, load, store. rewrite Hb. reflexivity. Qed.

Lemma set_next_spec (s : Heap) (p v : Z) (b : Block) :
  mem s !! p = Some b ->
  set_next p v s = Done (set_mem (<[p := mkBlock (size b) (used b) v]> (mem s)) s).
Proof. intros Hb. unfold set_next, load, store. rewrite Hb. reflexivity. Qed.

Lemma wf_null_unmapped (s : Heap) (l : list Z) :
  wf s l -> mem s !! nullptr = None.
Proof.
  intros W. destruct (mem s !! nullptr) as [b |] eqn:E; [| reflexivity].
  destruct (wf_bounds s l W nullptr) as [H _]; [rewrite E; eauto |].
  pose proof (wf_break s l W). unfold nullptr in *. lia.
Qed.

Lemma wf_break_unmapped (s : Heap) (l : list Z) :
  wf s l -> mem s !! program_break s = None.
Proof.
  intros W. destruct (mem s !! program_break s) as [b |] eqn:E; [| reflexivity].
  destruct (wf_bounds s l W (program_break s)) as [_ H]; [rewrite E; eauto |].
  unfold header_bytes, offsetof_data in H. lia.
Qed.

(** A granted request: the break moves up by the increment and a
    zero-filled header appears at the old break. *)
Lemma requestFromOS_granted (sz : Z) (s : Heap) (l : list Z) :
  wf s l ->
  header_bytes <= signed (allocSize sz) ->
  program_break s + signed (allocSize sz) <= break_limit s ->
  requestFromOS sz s
  = (mkHeap (<[program_break s := zero_block]> (mem s))
            (heapStart s) (top s) (searchStart s) (searchMode s)
            (program_break s + signed (allocSize sz))
            (break_base s) (break_limit s),
     program_break s).
Proof.
  intros W Hd Hlim. pose proof (wf_break s l W) as Hbrk.
  unfold header_bytes, offsetof_data in *.
  unfold requestFromOS, sbrk, move_break.
  destruct (Z.leb_spec (break_base s) (program_break s + signed (allocSize sz)));
    [| lia].
  destruct (Z.leb_spec (program_break s + signed (allocSize sz)) (break_limit s));
    [| lia].
  simpl.
  destruct (Z.leb_spec (program_break s + header_bytes)
                       (program_break s + signed (allocSize sz)));
    [| unfold header_bytes, offsetof_data in *; lia].
  rewrite map_filter_id; [reflexivity |].
  intros a b Hab. simpl.
  destruct (wf_bounds s l W a) as [_ Ha]; [rewrite Hab; eauto |].
  unfold header_bytes, offsetof_data in *. lia.
Qed.

Lemma lseg_mapped m l : forall a z x,
  lseg m a l z -> x ∈ l -> x <> nullptr /\ is_Some (m !! x).
Proof.
  induction l as [| y l IH]; intros a z x Hl Hx; [inversion Hx |].
  apply lseg_cons_inv in Hl as (-> & Ha & b & Hb & Hl).
  apply elem_of_cons in Hx as [-> | Hx].
  - split; [assumption | rewrite Hb; eauto].
  - eapply IH; eassumption.
Qed.

Lemma last_elem (l : list Z) (d : Z) : l <> [] -> List.last l d ∈ l.
Proof.
  induction l as [| x l IH]; intros Hne; [congruence |].
  destruct l as [| y l]; [left |].
  right. apply IH. discriminate.
Qed.

(** Appending a block at [B]: the last block of the chain gets [B] as its
    [next], and the chain is one block longer. *)
Lemma lseg_snoc (m : gmap Z Block) (B : Z) (nb : Block) :
  m !! B = None -> B <> nullptr -> next nb = nullptr ->
  forall l a,
    lseg m a l nullptr -> l <> [] ->
    exists tb,
      m !! List.last l nullptr = Some tb /\
      lseg (<[List.last l nullptr := mkBlock (size tb) (used tb) B]>
              (<[B := nb]> m))
           a (l ++ [B]) nullptr.
Proof.
  intros HB HBn Hnb.
  induction l as [| x l IH]; intros a Hl Hne; [congruence |].
  pose proof (lseg_NoDup _ _ _ Hl) as Hnd.
  apply lseg_cons_inv in Hl as (-> & Ha & b & Hb & Hl).
  assert (HaB : a <> B) by congruence.
  destruct l as [| y l].
  - apply lseg_nil_inv in Hl. exists b. split; [exact Hb |]. simpl.
    apply lseg_cons with (b := mkBlock (size b) (used b) B);
      [assumption | apply lookup_insert_eq |].
    simpl. apply lseg_cons with (b := nb); [assumption | |].
    + rewrite lookup_insert_ne by assumption. apply lookup_insert_eq.
    + rewrite Hnb. constructor.
  - destruct (IH _ Hl) as (tb & Htb & Hseg); [discriminate |].
    exists tb.
    change (List.last (a :: y :: l) nullptr) with (List.last (y :: l) nullptr).
    split; [exact Htb |].
    apply NoDup_cons in Hnd as [Hnotin _].
    assert (Hlast : a <> List.last (y :: l) nullptr).
    { intros E. apply Hnotin. rewrite E. apply last_elem. discriminate. }
    simpl app. apply lseg_cons with (b := b); [assumption | | exact Hseg].
    rewrite !lookup_insert_ne by congruence. exact Hb.
Qed.

(** When the search finds nothing and the break may move by the footprint
    of the request, [alloc] puts a used block of the aligned size at the
    old break and appends it to the chain; the blocks that were there
    keep their [size] and [used]. *)
Lemma alloc_grows (fuel : nat) (sz : Z) (s s1 : Heap) (l : list Z) :
  wf s l ->
  findBlock fuel (align sz) s = Done (s1, nullptr) ->
  header_bytes <= signed (allocSize (align sz)) ->
  program_break s + signed (allocSize (align sz)) <= break_limit s ->
  exists s',
    alloc fuel sz s = Done (s', data_of (program_break s)) /\
    wf s' (l ++ [program_break s]) /\
    mem s' !! program_break s = Some (mkBlock (align sz) true nullptr) /\
    program_break s' = program_break s + signed (allocSize (align sz)) /\
    (forall a b, mem s !! a = Some b ->
       exists b', mem s' !! a = Some b' /\ size b' = size b /\ used b' = used b).
Proof.
  intros W Hfind Hd Hlim.
  pose proof (wf_break s l W) as Hbrk.
  pose proof (wf_break_unmapped s l W) as HB.
  pose proof (wf_chain s l W) as Hl. unfold chain in Hl.
  assert (HBn : program_break s <> nullptr) by (unfold nullptr; lia).
  assert (Hs1 : s1 = s \/ s1 = set_searchStart nullptr s)
    by (apply findBlock_frame in Hfind as [H _]; exact H).
  assert (W1 : wf s1 l).
  { destruct Hs1 as [-> | ->]; [exact W |].
    destruct W. constructor; try assumption. left. reflexivity. }
  assert (Hb1 : program_break s1 = program_break s)
    by (destruct Hs1 as [-> | ->]; reflexivity).
  assert (Hm1 : mem s1 = mem s) by (destruct Hs1 as [-> | ->]; reflexivity).
  assert (Hh1 : heapStart s1 = heapStart s)
    by (destruct Hs1 as [-> | ->]; reflexivity).
  assert (Ht1 : top s1 = top s) by (destruct Hs1 as [-> | ->]; reflexivity).
  assert (Hbb1 : break_base s1 = break_base s)
    by (destruct Hs1 as [-> | ->]; reflexivity).
  assert (Hbl1 : break_limit s1 = break_limit s)
    by (destruct Hs1 as [-> | ->]; reflexivity).
  unfold alloc. rewrite Hfind. simpl.
  rewrite (requestFromOS_granted _ _ l W1) by (rewrite ?Hb1, ?Hbl1; assumption).
  rewrite Hb1, Hm1, Hh1, Ht1, Hbb1, Hbl1.
  set (B := program_break s) in *.
  erewrite set_size_spec by (simpl; apply lookup_insert_eq).
  cbn [bind].
  erewrite set_used_spec by (simpl; apply lookup_insert_eq).
  simpl. rewrite !insert_insert_eq.
  set (nb := mkBlock (align sz) true nullptr).
  destruct l as [| x l'].
  - (* the first block of the heap *)
    apply lseg_nil_inv in Hl.
    pose proof (wf_top s [] W) as Ht. simpl in Ht.
    rewrite Hl, Ht. simpl.
    eexists. split; [reflexivity |].
    split.
    { constructor; simpl.
      - unfold chain. simpl.
        apply lseg_cons with (b := nb);
          [assumption | apply lookup_insert_eq | constructor].
      - reflexivity.
      - destruct (wf_cursor s1 [] W1) as [E | E]; [left; exact E | inversion E].
      - intros a [b Hab].
        destruct (decide (a = B)) as [-> | Hne].
        + unfold header_bytes, offsetof_data in *. lia.
        + rewrite lookup_insert_ne in Hab by congruence.
          destruct (wf_bounds s [] W a) as [? ?]; [rewrite Hab; eauto |].
          unfold header_bytes, offsetof_data in *. lia.
      - unfold header_bytes, offsetof_data in *. lia. }
    split; [apply lookup_insert_eq |].
    split; [reflexivity |].
    intros a b Hab. exists b. simpl.
    rewrite lookup_insert_ne by congruence. auto.
  - (* a block after the current top *)
    pose proof Hl as Hl'.
    apply lseg_cons_inv in Hl' as (-> & Hh & _).
    destruct (lseg_snoc (mem s) B nb HB HBn eq_refl _ _ Hl)
      as (tb & Htb & Hseg); [discriminate |].
    rewrite <- (wf_top s _ W) in Htb, Hseg.
    assert (Htop : top s <> nullptr).
    { rewrite (wf_top s _ W).
      eapply lseg_mapped; [exact Hl | apply last_elem; discriminate]. }
    assert (HtB : top s <> B) by congruence.
    destruct (Z.eqb_spec (heapStart s) nullptr) as [E | _]; [congruence |].
    simpl.
    destruct (Z.eqb_spec (top s) nullptr) as [E | _]; [congruence |].
    simpl.
    erewrite set_next_spec
      by (simpl; rewrite lookup_insert_ne by congruence; exact Htb).
    simpl. eexists. split; [reflexivity |].
    split.
    { constructor; simpl.
      - exact Hseg.
      - symmetry. exact (last_last (heapStart s :: l') B nullptr).
      - destruct (wf_cursor s1 _ W1) as [E | E]; [left; exact E |].
        right. change (searchStart s1 ∈ (heapStart s :: l') ++ [B]).
        apply elem_of_app. left. exact E.
      - intros a [b Hab].
        destruct (decide (a = B)) as [-> | Hne].
        + unfold header_bytes, offsetof_data in *. lia.
        + assert (Hin : is_Some (mem s !! a)).
          { destruct (decide (a = top s)) as [-> | Hne'];
              [rewrite Htb; eauto |].
            rewrite !lookup_insert_ne in Hab by congruence.
            rewrite Hab. eauto. }
          destruct (wf_bounds s _ W a Hin) as [? ?].
          unfold header_bytes, offsetof_data in *. lia.
      - unfold header_bytes, offsetof_data in *. lia. }
    split; [simpl; rewrite lookup_insert_ne by congruence;
            apply lookup_insert_eq |].
    split; [reflexivity |].
    intros a b Hab. simpl.
    destruct (decide (a = top s)) as [-> | Hne].
    + rewrite lookup_insert_eq. eexists. split; [reflexivity |].
      split; simpl; congruence.
    + exists b. rewrite !lookup_insert_ne by congruence. auto.
Qed.

(** ** The invariant *)

(** Rewriting a header of the heap without touching its [next]. *)
Lemma wf_update (s : Heap) (l : list Z) (p : Z) (b b' : Block) :
  wf s l -> mem s !! p = Some b -> next b' = next b ->
  wf (set_mem (<[p := b']> (mem s)) s) l.
Proof.
  intros W Hb Hn. destruct W as [Hl Ht Hc Hbd Hbrk].
  constructor; simpl; try assumption.
  - unfold chain in *. simpl. eapply lseg_update; eassumption.
  - intros a Ha. apply Hbd.
    destruct (decide (a = p)) as [-> | Hne]; [rewrite Hb; eauto |].
    rewrite lookup_insert_ne in Ha by congruence. exact Ha.
Qed.

Lemma wf_set_searchStart (s : Heap) (l : list Z) (c : Z) :
  wf s l -> c = nullptr \/ c ∈ l -> wf (set_searchStart c s) l.
Proof. intros [Hl Ht Hc Hbd Hbrk] H. constructor; assumption. Qed.

Lemma free_preserves_wf (s s' : Heap) (l : list Z) (data : Z) :
  wf s l -> free data s = Done s' -> wf s' l.
Proof.
  intros W H. unfold free, set_used, load, store in H.
  destruct (mem s !! getHeader data) as [b |] eqn:Hb; [| discriminate].
  simpl in H. injection H as <-.
  eapply wf_update; [exact W | exact Hb | reflexivity].
Qed.

Lemma lseg_next_in m l : forall h a b,
  lseg m h l nullptr -> a ∈ l -> m !! a = Some b ->
  next b = nullptr \/ next b ∈ l.
Proof.
  induction l as [| x l IH]; intros h a b Hl Ha Hb; [inversion Ha |].
  apply lseg_cons_inv in Hl as (-> & Hh & c & Hc & Hl).
  apply elem_of_cons in Ha as [-> | Ha].
  - assert (c = b) by congruence. subst c.
    destruct l as [| y l].
    + apply lseg_nil_inv in Hl. left. exact Hl.
    + pose proof Hl as Hl'. apply lseg_cons_inv in Hl' as (-> & _).
      right. right. left.
  - destruct (IH _ _ _ Hl Ha Hb) as [E | E]; [left; exact E |].
    right. right. exact E.
Qed.

Lemma nextFit_loop_in_chain (s : Heap) (l : list Z) (alignedSize : Z) :
  chain s l ->
  forall fuel a s1 r,
    a ∈ l ->
    nextFit_loop fuel s alignedSize a = Done (s1, r) ->
    r = nullptr \/ r ∈ l.
Proof.
  intros Hl. induction fuel as [| fuel IH]; intros a s1 r Ha H;
    [discriminate |].
  assert (Hhead : heapStart s ∈ l).
  { unfold chain in Hl. destruct l as [| x l]; [inversion Ha |].
    pose proof Hl as Hl'. apply lseg_cons_inv in Hl' as (-> & _). left. }
  simpl in H. unfold load in H.
  destruct (mem s !! a) as [b |] eqn:Hb; [| discriminate]. simpl in H.
  destruct (skips alignedSize b).
  - destruct (Z.eqb_spec (next b) nullptr) as [E | Hn].
    + destruct (searchStart s =? nullptr);
        [injection H as <- <-; left; reflexivity |].
      destruct (heapStart s =? searchStart s);
        [injection H as <- <-; left; reflexivity |].
      eapply IH; eassumption.
    + destruct (next b =? searchStart s);
        [injection H as <- <-; left; reflexivity |].
      destruct (lseg_next_in _ _ _ _ _ Hl Ha Hb) as [E | E]; [congruence |].
      eapply IH; eassumption.
  - injection H as <- <-. right. exact Ha.
Qed.

(** After a search the cursor is still unset or on the chain. *)
Lemma findBlock_preserves_wf (fuel : nat) (alignedSize : Z)
    (s s1 : Heap) (l : list Z) (r : Z) :
  wf s l -> findBlock fuel alignedSize s = Done (s1, r) -> wf s1 l.
Proof.
  intros W H. pose proof (wf_chain s l W) as Hl.
  unfold findBlock in H. destruct (searchMode s).
  - destruct (firstFit fuel alignedSize s); try discriminate.
    injection H as <- <-. exact W.
  - unfold nextFit in H.
    destruct (Z.eqb_spec (if searchStart s =? nullptr then heapStart s
                          else searchStart s) nullptr) as [E | Hne].
    + injection H as <- <-. exact W.
    + assert (Hin : (if searchStart s =? nullptr then heapStart s
                     else searchStart s) ∈ l).
      { destruct (Z.eqb_spec (searchStart s) nullptr) as [E | Hset].
        - unfold chain in Hl. destruct l as [| x l].
          + apply lseg_nil_inv in Hl. congruence.
          + pose proof Hl as Hl'. apply lseg_cons_inv in Hl' as (-> & _).
            left.
        - destruct (wf_cursor s l W); [congruence | assumption]. }
      pose proof (nextFit_loop_in_chain s l alignedSize Hl _ _ _ _ Hin H)
        as Hr.
      apply nextFit_loop_frame in H as [[-> ->] | [-> _]]; [exact W |].
      apply wf_set_searchStart; assumption.
  - destruct (bestFit fuel alignedSize s); try discriminate.
    injection H as <- <-. exact W.
Qed.

(** Without room for a header in what [sbrk] grants, or without a grant,
    the first write of [alloc] to the new block is out of the heap. *)
Lemma alloc_without_room_crashes (fuel : nat) (sz : Z) (s s1 : Heap) (l : list Z) :
  wf s l ->
  findBlock fuel (align sz) s = Done (s1, nullptr) ->
  ~ (header_bytes <= signed (allocSize (align sz)) /\
     program_break s + signed (allocSize (align sz)) <= break_limit s) ->
  alloc fuel sz s = Crash.
Proof.
  intros W Hfind Hno.
  pose proof (findBlock_preserves_wf _ _ _ _ _ _ W Hfind) as W1.
  pose proof (findBlock_mem _ _ _ _ _ Hfind) as (Hm & _ & _ & _ & Hp & Hbb & Hbl).
  unfold alloc. rewrite Hfind. simpl.
  unfold requestFromOS, sbrk.
  destruct ((break_base s1 <=? program_break s1 + signed (allocSize (align sz)))
            && (program_break s1 + signed (allocSize (align sz))
                <=? break_limit s1)) eqn:Hgrant.
  - apply andb_prop in Hgrant as [_ Hlim]. apply Z.leb_le in Hlim.
    rewrite Hp, Hbl in Hlim.
    unfold set_size, load, move_break. simpl.
    destruct (Z.leb_spec (program_break s1 + header_bytes)
                (program_break s1 + signed (allocSize (align sz))))
      as [Hfit | _]; [exfalso; apply Hno; split; lia |].
    destruct (filter _ (mem s1) !! program_break s1) as [b |] eqn:Hb;
      [| reflexivity].
    apply map_lookup_filter_Some in Hb as [Hb _].
    rewrite (wf_break_unmapped s1 l W1) in Hb. discriminate.
  - unfold set_size, load.
    rewrite (wf_null_unmapped s1 l W1). reflexivity.
Qed.

(** Every call of [alloc] that returns keeps the invariant: the chain is
    as it was or one block longer, at its end. *)
Lemma alloc_preserves_wf (fuel : nat) (sz : Z) (s s' : Heap) (l : list Z) (p : Z) :
  wf s l ->
  alloc fuel sz s = Done (s', p) ->
  wf s' l \/ wf s' (l ++ [getHeader p]).
Proof.
  intros W H.
  destruct (findBlock fuel (align sz) s) as [[s1 block] | |] eqn:Hfind;
    try (unfold alloc in H; rewrite Hfind in H; discriminate).
  pose proof (findBlock_preserves_wf _ _ _ _ _ _ W Hfind) as W1.
  destruct (Z.eq_dec block nullptr) as [-> | Hblock].
  - right.
    destruct (Z_le_dec header_bytes (signed (allocSize (align sz))))
      as [Hd | Hd];
      [destruct (Z_le_dec (program_break s + signed (allocSize (align sz)))
                          (break_limit s)) as [Hlim | Hlim] |].
    + destruct (alloc_grows _ _ _ _ _ W Hfind Hd Hlim)
        as (s'' & Ha & W'' & _).
      rewrite Ha in H. injection H as <- <-.
      rewrite getHeader_of_payload.
      exact W''.
    + rewrite (alloc_without_room_crashes _ _ _ _ _ W Hfind) in H;
        [discriminate | tauto].
    + rewrite (alloc_without_room_crashes _ _ _ _ _ W Hfind) in H;
        [discriminate | tauto].
  - left. unfold alloc in H. rewrite Hfind in H. simpl in H.
    destruct (Z.eqb_spec block nullptr) as [E | _]; [congruence |].
    simpl in H. unfold set_used, load, store in H.
    destruct (mem s1 !! block) as [b |] eqn:Hb; [| discriminate].
    simpl in H. injection H as <- <-.
    eapply wf_update; [exact W1 | exact Hb | reflexivity].
Qed.

Lemma wf_initial (base limit : Z) :
  0 < base <= limit -> wf (initial base limit) [].
Proof.
  intros Hb. constructor; simpl.
  - constructor.
  - reflexivity.
  - left. reflexivity.
  - intros a [b Hab]. rewrite lookup_empty in Hab. discriminate.
  - lia.
Qed.

(** [init] empties the chain: the break goes back to the first block. *)
Lemma init_preserves_wf (mode : SearchMode) (s : Heap) (l : list Z) :
  wf s l -> wf (init mode s) [].
Proof.
  intros W. pose proof (wf_break s l W) as Hbrk.
  pose proof (wf_chain s l W) as Hl. unfold chain in Hl.
  unfold init, resetHeap. simpl.
  destruct (Z.eqb_spec (heapStart s) nullptr) as [E | Hne].
  - rewrite E in Hl. apply lseg_from_null in Hl as [-> _].
    destruct W as [Hc Ht Hcur Hbd Hb]. constructor; assumption.
  - assert (Hin : heapStart s ∈ l).
    { destruct l as [| x l]; [apply lseg_nil_inv in Hl; congruence |].
      pose proof Hl as Hl'. apply lseg_cons_inv in Hl' as (-> & _). left. }
    destruct (lseg_mapped _ _ _ _ _ Hl Hin) as [_ Hmapped].
    destruct (wf_bounds s l W _ Hmapped) as [Hlow Hhigh].
    unfold header_bytes, offsetof_data in Hhigh.
    destruct (Z.leb_spec (break_base s) (heapStart s)); [| lia].
    destruct (Z.leb_spec (heapStart s) (break_limit s)); [| lia].
    simpl. unfold move_break. simpl.
    destruct (Z.leb_spec (program_break s + header_bytes) (heapStart s))
      as [Hup | _];
      [unfold header_bytes, offsetof_data in Hup; lia |].
    constructor; simpl.
    + constructor.
    + reflexivity.
    + left. reflexivity.
    + intros a [b Hab].
      apply map_lookup_filter_Some in Hab as [Hab Hunder]. simpl in Hunder.
      destruct (wf_bounds s l W a) as [Ha _]; [rewrite Hab; eauto |].
      split; assumption.
    + lia.
Qed.

Lemma wf_fresh (mode : SearchMode) (base limit : Z) :
  0 < base <= limit -> wf (init mode (initial base limit)) [].
Proof.
  intros Hb. eapply init_preserves_wf. apply wf_initial. exact Hb.
Qed.

(** Every state that the embedding reaches is well formed. *)
Lemma reachable_wf (s : Heap) : reachable s -> exists l, wf s l.
Proof.
  induction 1 as [base limit Hb | mode s _ [l W] | fuel sz s s' p _ [l W] Ha
                 | data s s' _ [l W] Hf].
  - exists []. apply wf_initial. exact Hb.
  - exists []. eapply init_preserves_wf. exact W.
  - destruct (alloc_preserves_wf _ _ _ _ _ _ W Ha) as [W' | W']; eauto.
  - exists l. eapply free_preserves_wf; eassumption.
Qed.

(** A handle that [alloc] returns resolves to a header of the heap, and
    that block is in use. *)
Lemma alloc_handle_resolves (fuel : nat) (sz : Z) (s s' : Heap)
    (l : list Z) (p : Z) :
  wf s l ->
  alloc fuel sz s = Done (s', p) ->
  exists b, mem s' !! getHeader p = Some b /\ used b = true.
Proof.
  intros W H.
  destruct (findBlock fuel (align sz) s) as [[s1 block] | |] eqn:Hfind;
    try (unfold alloc in H; rewrite Hfind in H; discriminate).
  destruct (Z.eq_dec block nullptr) as [-> | Hblock].
  - destruct (Z_le_dec header_bytes (signed (allocSize (align sz))))
      as [Hd | Hd];
      [destruct (Z_le_dec (program_break s + signed (allocSize (align sz)))
                          (break_limit s)) as [Hlim | Hlim] |].
    + destruct (alloc_grows _ _ _ _ _ W Hfind Hd Hlim)
        as (s'' & Ha & _ & Hm & _).
      rewrite Ha in H. injection H as <- <-.
      rewrite getHeader_of_payload.
      eexists. split; [exact Hm | reflexivity].
    + rewrite (alloc_without_room_crashes _ _ _ _ _ W Hfind) in H;
        [discriminate | tauto].
    + rewrite (alloc_without_room_crashes _ _ _ _ _ W Hfind) in H;
        [discriminate | tauto].
  - destruct (alloc_never_splits _ _ _ _ _ Hfind Hblock)
      as (b & s'' & Hb & Ha & Hm & _).
    rewrite Ha in H. injection H as <- <-.
    rewrite getHeader_of_payload.
    rewrite Hm, lookup_insert_eq. eexists. split; reflexivity.
Qed.

(** In first-fit and next-fit mode the search returns, with one unit of
    fuel per block of the chain and one more. *)
Lemma findBlock_returns (fuel : nat) (alignedSize : Z) (s : Heap) (l : list Z) :
  wf s l ->
  searchMode s <> BestFit ->
  (length l < fuel)%nat ->
  exists s1 block, findBlock fuel alignedSize s = Done (s1, block).
Proof.
  intros W Hmode Hf. pose proof (wf_chain s l W) as Hl.
  unfold findBlock. destruct (searchMode s); [| | congruence].
  - unfold firstFit.
    rewrite (firstFit_loop_scan s alignedSize l) by assumption.
    simpl. eauto.
  - rewrite (nextFit_scan s l alignedSize fuel Hl (wf_cursor s l W))
      by lia.
    unfold nextFit_result.
    destruct (find (fits s alignedSize) (scan_order s l)); eauto.
Qed.

(** ** Requests of zero bytes *)

(** C8, as the specification words it, fails: nothing is rejected.  On the
    fresh heap [alloc(0)] moves the break by the 24 bytes of a header,
    chains a used block of size 0 and returns its payload address; with a
    free block of 16 bytes in the chain, [alloc(0)] hands that block
    out. *)
Lemma alloc_zero_is_not_rejected :
  alloc 1 0 (fresh FirstFit)
  = Done (mkHeap {[ 4096 := mkBlock 0 true 0 ]}
                 4096 4096 0 FirstFit 4120 4096 65536, 4120) /\
  alloc 1 0 one_free_block = Done (one_used_block, 4120).
Proof. split; vm_compute; reflexivity. Qed.

(** C8 (amended).  [alloc(0)] is served like any other request, with an
    aligned size of 0.  On a well-formed heap in first-fit or next-fit
    mode the search returns, given one unit of fuel per block and one
    more.  Whenever the search returns a block, [alloc(0)] marks it used
    and returns its payload, the block keeping its size; whenever the
    search returns nothing and the break may move by the size of a
    header, [alloc(0)] appends a used block of size 0 at the old break and
    returns its payload. *)
Theorem alloc_zero_is_served (fuel : nat) (s : Heap) (l : list Z) :
  wf s l ->
  (searchMode s <> BestFit -> (length l < fuel)%nat ->
   exists s1 block, findBlock fuel (align 0) s = Done (s1, block)) /\
  (forall s1 block,
     findBlock fuel (align 0) s = Done (s1, block) ->
     (block <> nullptr ->
      exists b s',
        mem s !! block = Some b /\
        alloc fuel 0 s = Done (s', data_of block) /\
        mem s' = <[block := mkBlock (size b) true (next b)]> (mem s)) /\
     (block = nullptr ->
      program_break s + header_bytes <= break_limit s ->
      exists s',
        alloc fuel 0 s = Done (s', data_of (program_break s)) /\
        wf s' (l ++ [program_break s]) /\
        mem s' !! program_break s = Some (mkBlock 0 true nullptr) /\
        program_break s' = program_break s + header_bytes)).
Proof.
  intros W. split; [intros; eapply findBlock_returns; eassumption |].
  intros s1 block Hfind. split.
  - intros Hblock.
    destruct (alloc_never_splits _ _ _ _ _ Hfind Hblock)
      as (b & s' & Hb & Ha & Hm & _).
    exists b, s'. auto.
  - intros -> Hlim.
    assert (Hs : signed (allocSize (align 0)) = header_bytes) by reflexivity.
    destruct (alloc_grows fuel 0 s s1 l W Hfind) as (s' & Ha & W' & Hm & Hp & _).
    + rewrite Hs. lia.
    + rewrite Hs. exact Hlim.
    + exists s'. rewrite Hs in Hp. auto.
Qed.

Lemma alloc_zero_is_served_witness :
  exists s',
    alloc 1 0 (fresh FirstFit) = Done (s', data_of 4096) /\
    wf s' [4096] /\
    mem s' !! 4096 = Some (mkBlock 0 true nullptr) /\
    program_break s' = 4096 + header_bytes.
Proof.
  destruct (alloc_zero_is_served 1 (fresh FirstFit) []) as [_ Hserved].
  - apply wf_fresh. lia.
  - destruct (Hserved (fresh FirstFit) nullptr) as [_ Hgrow].
    + vm_compute. reflexivity.
    + apply Hgrow; [reflexivity | vm_compute; discriminate].
Defined.


(** * Further properties of the searches *)

Lemma fits_block (s : Heap) (alignedSize a : Z) :
  fits s alignedSize a = true ->
  exists b, mem s !! a = Some b /\ used b = false /\ alignedSize <= size b.
Proof.
  unfold fits, skips. intros H.
  destruct (mem s !! a) as [b |]; [| discriminate].
  exists b. split; [reflexivity |].
  destruct (used b); [discriminate |]. simpl in H.
  destruct (Z.ltb_spec (size b) alignedSize); [discriminate |].
  split; [reflexivity | lia].
Qed.

Lemma fits_size_at (s : Heap) (alignedSize a : Z) :
  fits s alignedSize a = true -> alignedSize <= size_at s a.
Proof.
  intros H. apply fits_block in H as (b & Hb & _ & Hle).
  unfold size_at. rewrite Hb. exact Hle.
Qed.

(** [firstFit], lines 172-191.  On a heap whose chain is [l], with one
    unit of fuel per block and one more, [firstFit] returns the first
    block of the chain, from the head, that is free and at least as large
    as the request, and [nullptr] when the chain has no such block; it
    takes the first one even when a later block is smaller. *)
Theorem firstFit_returns_first_fit
    (s : Heap) (l : list Z) (alignedSize : Z) (fuel : nat) :
  chain s l ->
  (length l < fuel)%nat ->
  exists r,
    firstFit fuel alignedSize s = Done r /\
    ((r = nullptr /\ forall x, x ∈ l -> fits s alignedSize x = false) \/
     (exists before after b,
        l = before ++ r :: after /\
        (forall x, x ∈ before -> fits s alignedSize x = false) /\
        mem s !! r = Some b /\ used b = false /\ alignedSize <= size b)).
Proof.
  intros Hl Hf. unfold chain in Hl. unfold firstFit.
  rewrite (firstFit_loop_scan s alignedSize l) by assumption.
  eexists. split; [reflexivity |].
  clear Hf. revert Hl. generalize (heapStart s).
  induction l as [| a l IH]; intros h Hl; simpl.
  - left. split; [reflexivity |]. intros x Hx. inversion Hx.
  - apply lseg_cons_inv in Hl as (-> & Hh & b & Hb & Hl).
    destruct (fits s alignedSize h) eqn:Hfit; simpl.
    + right. apply fits_block in Hfit as (b' & Hb' & Hu & Hle).
      exists [], l, b'. split; [reflexivity |].
      split; [intros x Hx; inversion Hx | auto].
    + destruct (IH _ Hl) as [[E Hnone] | (before & after & b' & E & Hbef & Hrest)].
      * left. split; [exact E |]. intros x Hx.
        apply elem_of_cons in Hx as [-> | Hx]; auto.
      * right. exists (h :: before), after, b'.
        split; [simpl; f_equal; exact E |]. split; [| exact Hrest].
        intros x Hx. apply elem_of_cons in Hx as [-> | Hx]; auto.
Qed.

Lemma firstFit_returns_first_fit_witness :
  exists r,
    firstFit 5 16 best_fit_before_last = Done r /\
    ((r = nullptr /\
      forall x, x ∈ [4096; 4128; 4216; 4248] ->
                fits best_fit_before_last 16 x = false) \/
     (exists before after b,
        [4096; 4128; 4216; 4248] = before ++ r :: after /\
        (forall x, x ∈ before -> fits best_fit_before_last 16 x = false) /\
        mem best_fit_before_last !! r = Some b /\
        used b = false /\ 16 <= size b)).
Proof.
  apply (firstFit_returns_first_fit best_fit_before_last
           [4096; 4128; 4216; 4248] 16 5).
  - apply walk_sound with (fuel := 4%nat). vm_compute. reflexivity.
  - simpl. lia.
Defined.

(** What [bestFit] knows after the blocks [seen]: nothing fits among
    them, or [best] is one of them, fits, and none of them that fits is
    smaller. *)
Lemma bestFit_loop_min (s : Heap) (alignedSize : Z) (fuel : nat) :
  forall l a best seen r,
    lseg (mem s) a l nullptr ->
    ((best = nullptr /\ forall x, x ∈ seen -> fits s alignedSize x = false) \/
     (best <> nullptr /\ best ∈ seen /\ fits s alignedSize best = true /\
      forall x, x ∈ seen -> fits s alignedSize x = true ->
                size_at s best <= size_at s x)) ->
    bestFit_loop fuel s alignedSize a best = Done r ->
    (r = nullptr /\ forall x, x ∈ seen ++ l -> fits s alignedSize x = false) \/
    (r <> nullptr /\ r ∈ seen ++ l /\ fits s alignedSize r = true /\
     forall x, x ∈ seen ++ l -> fits s alignedSize x = true ->
               size_at s r <= size_at s x).
Proof.
  induction fuel as [| fuel IH]; intros l a best seen r Hl Inv H;
    [discriminate |].
  simpl in H. destruct (Z.eqb_spec a nullptr) as [-> | Ha].
  - apply lseg_from_null in Hl as [-> _]. injection H as <-.
    rewrite app_nil_r. exact Inv.
  - destruct l as [| x l]; [apply lseg_nil_inv in Hl; congruence |].
    apply lseg_cons_inv in Hl as (-> & _ & b & Hb & Hl).
    unfold load in H. rewrite Hb in H. simpl in H.
    assert (Happ : seen ++ a :: l = (seen ++ [a]) ++ l)
      by (rewrite <- app_assoc; reflexivity).
    assert (Hfa : fits s alignedSize a = negb (skips alignedSize b))
      by (unfold fits; rewrite Hb; reflexivity).
    assert (Hsa : size_at s a = size b)
      by (unfold size_at; rewrite Hb; reflexivity).
    destruct (skips alignedSize b) eqn:Hskip; simpl in Hfa.
    + rewrite Happ. apply (IH l (next b) best (seen ++ [a]) r Hl); [| exact H].
      destruct Inv as [[E Hnone] | (Hn & Hin & Hfit & Hmin)].
      * left. split; [exact E |]. intros x Hx.
        apply elem_of_app in Hx as [Hx | Hx]; [auto |].
        apply list_elem_of_singleton in Hx. subst x. exact Hfa.
      * right. split; [exact Hn |].
        split; [apply elem_of_app; left; exact Hin |].
        split; [exact Hfit |]. intros x Hx Hfx.
        apply elem_of_app in Hx as [Hx | Hx]; [auto |].
        apply list_elem_of_singleton in Hx. subst x. congruence.
    + assert (Hnew : a <> nullptr /\ a ∈ seen ++ [a] /\
                     fits s alignedSize a = true)
        by (split; [exact Ha |];
            split; [apply elem_of_app; right; left | exact Hfa]).
      destruct (Z.eqb_spec (size b) alignedSize) as [Hexact | Hne].
      * injection H as <-. right. split; [exact Ha |].
        split; [apply elem_of_app; right; left |].
        split; [exact Hfa |]. intros x _ Hfx.
        rewrite Hsa, Hexact. apply fits_size_at. exact Hfx.
      * destruct (Z.eqb_spec best nullptr) as [Hb0 | Hb0]; simpl in H.
        -- rewrite Happ. apply (IH l (next b) a (seen ++ [a]) r Hl); [| exact H].
           right. destruct Hnew as (H1 & H2 & H3).
           do 3 (split; [assumption |]). intros x Hx Hfx.
           apply elem_of_app in Hx as [Hx | Hx].
           ++ destruct Inv as [[_ Hnone] | (Hn & _)]; [| congruence].
              rewrite (Hnone x Hx) in Hfx. discriminate.
           ++ apply list_elem_of_singleton in Hx. subst x. lia.
        -- destruct Inv as [[E _] | (Hn & Hin & Hfit & Hmin)]; [congruence |].
           pose proof Hfit as Hfit'.
           apply fits_block in Hfit' as (bb & Hbb & _).
           assert (Hsb : size_at s best = size bb)
             by (unfold size_at; rewrite Hbb; reflexivity).
           rewrite Hbb in H. simpl in H.
           destruct (Z.ltb_spec (size b) (size bb)) as [Hlt | Hge].
           ++ rewrite Happ.
              apply (IH l (next b) a (seen ++ [a]) r Hl); [| exact H].
              right. destruct Hnew as (H1 & H2 & H3).
              do 3 (split; [assumption |]). intros x Hx Hfx.
              apply elem_of_app in Hx as [Hx | Hx].
              ** specialize (Hmin x Hx Hfx). lia.
              ** apply list_elem_of_singleton in Hx. subst x. lia.
           ++ apply (IH (a :: l) a best seen r); [| | exact H].
              ** econstructor; eassumption.
              ** right. auto.
Qed.

(** [bestFit], lines 249-280, when it returns.  Whatever the fuel, a
    block that [bestFit] returns is a free block of the chain, at least as
    large as the request, and no free block of the chain that is large
    enough is smaller; when it returns [nullptr], no block of the chain
    fits. *)
Theorem bestFit_returns_a_smallest_fit
    (s : Heap) (l : list Z) (alignedSize : Z) (fuel : nat) (r : Z) :
  chain s l ->
  bestFit fuel alignedSize s = Done r ->
  (r = nullptr /\ forall x, x ∈ l -> fits s alignedSize x = false) \/
  (exists b,
     r ∈ l /\ mem s !! r = Some b /\ used b = false /\
     alignedSize <= size b /\
     forall x bx, x ∈ l -> mem s !! x = Some bx -> used bx = false ->
                  alignedSize <= size bx -> size b <= size bx).
Proof.
  intros Hl H. unfold chain in Hl. unfold bestFit in H.
  destruct (bestFit_loop_min s alignedSize fuel l (heapStart s) nullptr [] r Hl)
    as [Hnone | (Hn & Hin & Hfit & Hmin)]; simpl in *.
  - left. split; [reflexivity |]. intros x Hx. inversion Hx.
  - exact H.
  - left. exact Hnone.
  - right. pose proof Hfit as Hfit'.
    apply fits_block in Hfit' as (b & Hb & Hu & Hle).
    exists b. do 4 (split; [assumption |]).
    intros x bx Hx Hbx Hux Hlx.
    assert (Hfx : fits s alignedSize x = true).
    { unfold fits, skips. rewrite Hbx, Hux. simpl.
      destruct (Z.ltb_spec (size bx) alignedSize); [lia | reflexivity]. }
    specialize (Hmin x Hx Hfx). unfold size_at in Hmin.
    rewrite Hb, Hbx in Hmin. exact Hmin.
Qed.

Lemma bestFit_returns_a_smallest_fit_witness :
  (4128 = nullptr /\
   forall x, x ∈ [4096; 4128; 4216; 4248] ->
             fits best_fit_before_last 16 x = false) \/
  (exists b,
     4128 ∈ [4096; 4128; 4216; 4248] /\
     mem best_fit_before_last !! 4128 = Some b /\ used b = false /\
     16 <= size b /\
     forall x bx, x ∈ [4096; 4128; 4216; 4248] ->
                  mem best_fit_before_last !! x = Some bx ->
                  used bx = false -> 16 <= size bx -> size b <= size bx).
Proof.
  apply (bestFit_returns_a_smallest_fit best_fit_before_last
           [4096; 4128; 4216; 4248] 16 5 4128).
  - apply walk_sound with (fuel := 4%nat). vm_compute. reflexivity.
  - vm_compute. reflexivity.
Defined.

Lemma fitting_cons (s : Heap) (alignedSize a : Z) (l : list Z) :
  fitting s alignedSize (a :: l)
  = if fits s alignedSize a then a :: fitting s alignedSize l
    else fitting s alignedSize l.
Proof. reflexivity. Qed.

Lemma fitting_head_fits (s : Heap) (alignedSize : Z) (l : list Z) y rest :
  fitting s alignedSize l = y :: rest -> fits s alignedSize y = true.
Proof.
  intros E. assert (Hin : In y (fitting s alignedSize l))
    by (rewrite E; left; reflexivity).
  apply filter_In in Hin as [_ H]. exact H.
Qed.

Lemma last_cons_default (a d : Z) (l : list Z) :
  List.last (a :: l) d = List.last l a.
Proof.
  revert a d. induction l as [| x l IH]; intros a d; [reflexivity |].
  change (List.last (a :: x :: l) d) with (List.last (x :: l) d).
  rewrite (IH x d). symmetry. apply (IH x a).
Qed.

Lemma bestFit_loop_descending (s : Heap) (alignedSize : Z) :
  forall l a best fuel,
    lseg (mem s) a l nullptr ->
    (length l < fuel)%nat ->
    ((best = nullptr /\
      descending (map (size_at s) (fitting s alignedSize l))) \/
     (best <> nullptr /\ fits s alignedSize best = true /\
      descending (map (size_at s) (best :: fitting s alignedSize l)))) ->
    bestFit_loop fuel s alignedSize a best
    = Done (List.last (fitting s alignedSize l) best).
Proof.
  induction l as [| x l IH]; intros a best fuel Hl Hf Inv;
    (destruct fuel as [| fuel]; [simpl in Hf; lia |]); simpl bestFit_loop.
  - apply lseg_nil_inv in Hl. subst a. reflexivity.
  - apply lseg_cons_inv in Hl as (-> & Ha & b & Hb & Hl).
    destruct (Z.eqb_spec a nullptr) as [E | _]; [congruence |].
    unfold load. rewrite Hb. simpl bind.
    assert (Hfa : fits s alignedSize a = negb (skips alignedSize b))
      by (unfold fits; rewrite Hb; reflexivity).
    assert (Hsa : size_at s a = size b)
      by (unfold size_at; rewrite Hb; reflexivity).
    assert (Hf' : (length l < fuel)%nat) by (simpl in Hf; lia).
    rewrite fitting_cons in *. rewrite Hfa in *.
    destruct (skips alignedSize b); simpl negb in *; cbv iota in *.
    + apply IH; assumption.
    + assert (Htail : descending (map (size_at s)
                                     (a :: fitting s alignedSize l))).
      { destruct Inv as [[_ D] | (_ & _ & D)]; [exact D |].
        simpl in D. simpl. tauto. }
      destruct (Z.eqb_spec (size b) alignedSize) as [Hexact | Hne].
      * destruct (fitting s alignedSize l) as [| y rest] eqn:Hfit;
          [reflexivity |].
        apply fitting_head_fits in Hfit. apply fits_size_at in Hfit.
        simpl in Htail. lia.
      * rewrite last_cons_default.
        destruct (Z.eqb_spec best nullptr) as [Hb0 | Hb0]; simpl bind.
        -- apply IH; [assumption | assumption |].
           right. split; [exact Ha |]. split; [exact Hfa | exact Htail].
        -- destruct Inv as [[E _] | (_ & Hbest & D)]; [congruence |].
           apply fits_block in Hbest as (bb & Hbb & _).
           rewrite Hbb. simpl bind.
           assert (Hlt : size b < size bb).
           { simpl in D. unfold size_at at 1 2 in D.
             rewrite Hbb, Hb in D. tauto. }
           destruct (Z.ltb_spec (size b) (size bb)) as [_ | Hge]; [| lia].
           apply IH; [assumption | assumption |].
           right. split; [exact Ha |]. split; [exact Hfa | exact Htail].
Qed.

(** [bestFit], lines 249-280, when it is sure to return.  On a heap whose
    chain is [l], if each block that fits the request is smaller than the
    fitting block before it in the chain, then [bestFit] returns, with one
    unit of fuel per block and one more, the last fitting block of the
    chain (the smallest one), and [nullptr] when no block fits. *)
Theorem bestFit_returns_on_descending_sizes
    (s : Heap) (l : list Z) (alignedSize : Z) (fuel : nat) :
  chain s l ->
  descending (map (size_at s) (fitting s alignedSize l)) ->
  (length l < fuel)%nat ->
  bestFit fuel alignedSize s
  = Done (List.last (fitting s alignedSize l) nullptr).
Proof.
  intros Hl D Hf. unfold bestFit.
  apply bestFit_loop_descending; [exact Hl | exact Hf |].
  left. split; [reflexivity | exact D].
Qed.

(** The best-fit test of [main]: after [free(z2); free(z1)] the free blocks
    are the one of 64 bytes and then the one of 16 bytes, and the request
    of 16 bytes gets the second. *)
Lemma bestFit_returns_on_descending_sizes_witness :
  bestFit 5 16 (mkHeap (<[ 4096 := mkBlock 8 true 4128 ]>
                       (<[ 4128 := mkBlock 64 false 4216 ]>
                       (<[ 4216 := mkBlock 8 true 4248 ]>
                          {[ 4248 := mkBlock 16 false 0 ]})))
                       4096 4248 0 BestFit 4288 4096 65536)
  = Done 4248.
Proof.
  rewrite (bestFit_returns_on_descending_sizes _ [4096; 4128; 4216; 4248]).
  - vm_compute. reflexivity.
  - apply walk_sound with (fuel := 4%nat). vm_compute. reflexivity.
  - vm_compute. split; [reflexivity | exact I].
  - simpl. lia.
Defined.

(** * The layout of the region *)

Lemma align_range (n : Z) : 0 <= align n < 2 ^ 64.
Proof.
  rewrite align_div.
  pose proof (Z.mod_pos_bound (n + 7) (2 ^ 64) ltac:(lia)).
  Z.div_mod_to_equations. lia.
Qed.

(** A footprint that leaves room for a header did not wrap. *)
Lemma footprint_exact (sz : Z) :
  header_bytes <= signed (allocSize (align sz)) ->
  signed (allocSize (align sz)) = header_bytes + align sz.
Proof.
  pose proof (align_range sz) as Hr.
  unfold header_bytes, offsetof_data, signed, allocSize, wrap,
    sizeof_Block, sizeof_data.
  rewrite Zminus_mod_idemp_l, Z.mod_mod by lia.
  replace (align sz + 32 - 8) with (align sz + 24) by lia.
  intros H.
  destruct (Z_lt_dec (align sz + 24) (2 ^ 64)) as [Hlt | Hge].
  - rewrite Z.mod_small in * by lia.
    destruct (Z.ltb_spec (align sz + 24) (2 ^ 63)); lia.
  - assert (E : (align sz + 24) mod 2 ^ 64 = align sz + 24 - 2 ^ 64)
      by (symmetry; apply Z.mod_unique with (q := 1); lia).
    rewrite E in *.
    destruct (Z.ltb_spec (align sz + 24 - 2 ^ 64) (2 ^ 63)); lia.
Qed.

Lemma tiles_ext (m m' : gmap Z Block) (l : list Z) : forall a e,
  (forall x b, x ∈ l -> m !! x = Some b ->
               exists b', m' !! x = Some b' /\ size b' = size b) ->
  tiles m a l e -> tiles m' a l e.
Proof.
  induction l as [| x l IH]; intros a e Hs T; simpl in *; [exact T |].
  destruct T as (-> & b & Hb & Hpos & T).
  split; [reflexivity |].
  destruct (Hs a b) as (b' & Hb' & Hsz); [left | exact Hb |].
  exists b'. rewrite Hsz. split; [exact Hb' |]. split; [exact Hpos |].
  apply IH; [| exact T]. intros y c Hy. apply Hs. right. exact Hy.
Qed.

Lemma tiles_snoc (m : gmap Z Block) (l : list Z) : forall a e x b,
  tiles m a l e -> m !! e = Some b -> 0 <= size b -> x = e ->
  tiles m a (l ++ [x]) (e + header_bytes + size b).
Proof.
  induction l as [| y l IH]; intros a e x b T Hb Hpos ->; simpl in *.
  - subst a. split; [reflexivity |]. exists b. auto.
  - destruct T as (-> & c & Hc & Hcpos & T).
    split; [reflexivity |]. exists c. split; [exact Hc |].
    split; [exact Hcpos |]. apply IH; auto.
Qed.

Lemma tiles_le (m : gmap Z Block) (l : list Z) : forall a e,
  tiles m a l e -> a <= e.
Proof.
  induction l as [| x l IH]; intros a e T; simpl in T; [lia |].
  destruct T as (_ & b & _ & Hpos & T). apply IH in T.
  unfold header_bytes, offsetof_data in T. lia.
Qed.

Lemma tiles_inside (m : gmap Z Block) (l : list Z) : forall a e x bx,
  tiles m a l e -> x ∈ l -> m !! x = Some bx ->
  a <= x /\ x + header_bytes + size bx <= e.
Proof.
  induction l as [| y l IH]; intros a e x bx T Hx Hbx; [inversion Hx |].
  simpl in T. destruct T as (-> & b & Hb & Hpos & T).
  apply elem_of_cons in Hx as [-> | Hx].
  - assert (bx = b) by congruence. subst bx.
    apply tiles_le in T. lia.
  - destruct (IH _ _ _ _ T Hx Hbx) as [H1 H2].
    unfold header_bytes, offsetof_data in *. lia.
Qed.

Lemma tiles_size (m : gmap Z Block) (l : list Z) : forall a e x bx,
  tiles m a l e -> x ∈ l -> m !! x = Some bx -> 0 <= size bx.
Proof.
  induction l as [| y l IH]; intros a e x bx T Hx Hbx; [inversion Hx |].
  simpl in T. destruct T as (-> & b & Hb & Hpos & T).
  apply elem_of_cons in Hx as [-> | Hx].
  - assert (bx = b) by congruence. subst bx. exact Hpos.
  - eapply IH; eassumption.
Qed.

Lemma tiles_apart (m : gmap Z Block) (l : list Z) : forall a e x y bx by',
  tiles m a l e -> x ∈ l -> y ∈ l -> x <> y ->
  m !! x = Some bx -> m !! y = Some by' ->
  x + header_bytes + size bx <= y \/ y + header_bytes + size by' <= x.
Proof.
  induction l as [| z l IH]; intros a e x y bx by' T Hx Hy Hne Hbx Hby;
    [inversion Hx |].
  simpl in T. destruct T as (-> & b & Hb & Hpos & T).
  apply elem_of_cons in Hx as [-> | Hx];
    apply elem_of_cons in Hy as [-> | Hy].
  - congruence.
  - assert (bx = b) by congruence. subst bx.
    left. apply (tiles_inside _ _ _ _ _ _ T Hy Hby).
  - assert (by' = b) by congruence. subst by'.
    right. apply (tiles_inside _ _ _ _ _ _ T Hx Hbx).
  - eapply IH; eassumption.
Qed.

Lemma tidy_initial (base limit : Z) :
  0 < base <= limit -> tidy (initial base limit) [].
Proof.
  intros Hb. constructor.
  - apply wf_initial. exact Hb.
  - reflexivity.
  - intros a [b Hab]. simpl in Hab. rewrite lookup_empty in Hab.
    discriminate.
Qed.

Lemma tidy_update (s : Heap) (l : list Z) (p : Z) (b b' : Block) :
  tidy s l -> mem s !! p = Some b ->
  next b' = next b -> size b' = size b ->
  tidy (set_mem (<[p := b']> (mem s)) s) l.
Proof.
  intros [W T D] Hb Hn Hs. constructor.
  - eapply wf_update; eassumption.
  - simpl. apply (tiles_ext (mem s)); [| exact T].
    intros x c _ Hc. destruct (decide (x = p)) as [-> | Hne].
    + exists b'. rewrite lookup_insert_eq. split; [reflexivity | congruence].
    + exists c. rewrite lookup_insert_ne by congruence. auto.
  - intros a Ha. simpl in Ha. apply D.
    destruct (decide (a = p)) as [-> | Hne]; [rewrite Hb; eauto |].
    rewrite lookup_insert_ne in Ha by congruence. exact Ha.
Qed.

Lemma findBlock_preserves_tidy (fuel : nat) (alignedSize : Z)
    (s s1 : Heap) (l : list Z) (r : Z) :
  tidy s l -> findBlock fuel alignedSize s = Done (s1, r) -> tidy s1 l.
Proof.
  intros [W T D] H.
  pose proof (findBlock_preserves_wf _ _ _ _ _ _ W H) as W1.
  apply findBlock_frame in H as [[-> | ->] _]; constructor; assumption.
Qed.

Lemma free_preserves_tidy (s s' : Heap) (l : list Z) (data : Z) :
  tidy s l -> free data s = Done s' -> tidy s' l.
Proof.
  intros Ti H. unfold free, set_used, load, store in H.
  destruct (mem s !! getHeader data) as [b |] eqn:Hb; [| discriminate].
  simpl in H. injection H as <-.
  eapply tidy_update; [exact Ti | exact Hb | reflexivity | reflexivity].
Qed.

Lemma keeps_region_refl (s : Heap) : keeps_region s s.
Proof. repeat split; auto. Qed.

Lemma keeps_region_trans (s1 s2 s3 : Heap) :
  keeps_region s1 s2 -> keeps_region s2 s3 -> keeps_region s1 s3.
Proof.
  intros (B1 & L1 & M1 & D1) (B2 & L2 & M2 & D2).
  repeat split; [congruence | congruence | congruence | auto].
Qed.

Lemma store_keeps_region (p : Z) (b : Block) (s s' : Heap) :
  store p b s = Done s' -> keeps_region s s'.
Proof.
  unfold store. destruct (mem s !! p) as [c |] eqn:Hc; [| discriminate].
  intros H. injection H as <-. repeat split; simpl; try reflexivity.
  intros a Ha. destruct (decide (a = p)) as [-> | Hne]; [rewrite Hc; eauto |].
  rewrite lookup_insert_ne in Ha by congruence. exact Ha.
Qed.

Lemma set_size_keeps_region (p v : Z) (s s' : Heap) :
  set_size p v s = Done s' -> keeps_region s s'.
Proof.
  unfold set_size, load. destruct (mem s !! p); [| discriminate].
  apply store_keeps_region.
Qed.

Lemma set_used_keeps_region (p : Z) (v : bool) (s s' : Heap) :
  set_used p v s = Done s' -> keeps_region s s'.
Proof.
  unfold set_used, load. destruct (mem s !! p); [| discriminate].
  apply store_keeps_region.
Qed.

Lemma set_next_keeps_region (p v : Z) (s s' : Heap) :
  set_next p v s = Done s' -> keeps_region s s'.
Proof.
  unfold set_next, load. destruct (mem s !! p); [| discriminate].
  apply store_keeps_region.
Qed.

Lemma requestFromOS_region (sz : Z) (s s' : Heap) (block : Z) :
  requestFromOS sz s = (s', block) ->
  break_base s' = break_base s /\
  break_limit s' = break_limit s /\
  searchMode s' = searchMode s /\
  forall a, is_Some (mem s' !! a) -> is_Some (mem s !! a) \/ a = block.
Proof.
  unfold requestFromOS, sbrk.
  destruct ((break_base s <=? program_break s + signed (allocSize sz))
            && (program_break s + signed (allocSize sz) <=? break_limit s)).
  - intros H. injection H as <- <-. unfold move_break. simpl.
    repeat split. intros a [b Hab].
    destruct (program_break s + header_bytes
              <=? program_break s + signed (allocSize sz)).
    + destruct (decide (a = program_break s)) as [-> | Hne]; [right; reflexivity |].
      rewrite lookup_insert_ne in Hab by congruence.
      apply map_lookup_filter_Some in Hab as [Hab _]. left. eauto.
    + apply map_lookup_filter_Some in Hab as [Hab _]. left. eauto.
  - intros H. injection H as <- <-. repeat split. auto.
Qed.

(** [alloc] changes neither the base, nor the limit, nor the mode, and
    the only header that it may add is the one of the handle that it
    returns. *)
Lemma alloc_region (fuel : nat) (sz : Z) (s s' : Heap) (p : Z) :
  alloc fuel sz s = Done (s', p) ->
  break_base s' = break_base s /\
  break_limit s' = break_limit s /\
  searchMode s' = searchMode s /\
  forall a, is_Some (mem s' !! a) -> is_Some (mem s !! a) \/ a = getHeader p.
Proof.
  intros H. unfold alloc in H.
  destruct (findBlock fuel (align sz) s) as [[s1 block] | |] eqn:Hfind;
    try discriminate.
  pose proof (findBlock_mem _ _ _ _ _ Hfind) as (Hm & _ & _ & Hmode & _ & Hbb & Hbl).
  cbn [bind] in H.
  destruct (negb (block =? nullptr)).
  - destruct (set_used block true s1) as [s2 | |] eqn:H2; try discriminate.
    cbn [bind] in H. injection H as <- <-.
    apply set_used_keeps_region in H2 as (B2 & L2 & M2 & D2).
    repeat split; [congruence | congruence | congruence |].
    intros a Ha. left. rewrite <- Hm. auto.
  - destruct (requestFromOS (align sz) s1) as [s2 blk] eqn:Hreq.
    apply requestFromOS_region in Hreq as (B2 & L2 & M2 & D2).
    destruct (set_size blk (align sz) s2) as [s3 | |] eqn:H3; try discriminate.
    cbn [bind] in H.
    destruct (set_used blk true s3) as [s4 | |] eqn:H4; try discriminate.
    cbn [bind] in H.
    pose proof (keeps_region_trans _ _ _ (set_size_keeps_region _ _ _ _ H3)
                  (set_used_keeps_region _ _ _ _ H4)) as K4.
    set (s5 := if heapStart s4 =? nullptr then set_heapStart blk s4 else s4) in *.
    assert (K5 : keeps_region s2 s5).
    { subst s5. destruct (heapStart s4 =? nullptr); exact K4. }
    destruct (if negb (top s5 =? nullptr) then set_next (top s5) blk s5
              else Done s5) as [s6 | |] eqn:H6; try discriminate.
    cbn [bind] in H. injection H as <- <-.
    assert (K6 : keeps_region s2 s6).
    { destruct (negb (top s5 =? nullptr)).
      - eapply keeps_region_trans;
          [exact K5 | eapply set_next_keeps_region; exact H6].
      - injection H6 as <-. exact K5. }
    destruct K6 as (B6 & L6 & M6 & D6). rewrite getHeader_of_payload.
    repeat split; simpl; [congruence | congruence | congruence |].
    intros a Ha. rewrite <- Hm. apply D2. apply D6. exact Ha.
Qed.

(** Every call of [alloc] that returns keeps the layout: the chain is as
    it was, or one block longer with the new block at the old break. *)
Lemma alloc_preserves_tidy (fuel : nat) (sz : Z) (s s' : Heap) (l : list Z) (p : Z) :
  tidy s l ->
  alloc fuel sz s = Done (s', p) ->
  tidy s' l \/ (getHeader p = program_break s /\ tidy s' (l ++ [getHeader p])).
Proof.
  intros Ti H. pose proof (tidy_wf s l Ti) as W.
  destruct (findBlock fuel (align sz) s) as [[s1 block] | |] eqn:Hfind;
    try (unfold alloc in H; rewrite Hfind in H; discriminate).
  pose proof (findBlock_preserves_tidy _ _ _ _ _ _ Ti Hfind) as Ti1.
  destruct (Z.eq_dec block nullptr) as [-> | Hblock].
  - right.
    destruct (Z_le_dec header_bytes (signed (allocSize (align sz))))
      as [Hd | Hd];
      [destruct (Z_le_dec (program_break s + signed (allocSize (align sz)))
                          (break_limit s)) as [Hlim | Hlim] |].
    + destruct (alloc_grows _ _ _ _ _ W Hfind Hd Hlim)
        as (s'' & Ha & W'' & Hnew & Hbrk & Hold).
      pose proof (alloc_region _ _ _ _ _ H) as (Hbase & _ & _ & Hdom).
      rewrite Ha in H. injection H as <- <-.
      rewrite getHeader_of_payload in *. split; [reflexivity |].
      constructor.
      * exact W''.
      * rewrite Hbase, Hbrk, (footprint_exact sz Hd).
        replace (program_break s + (header_bytes + align sz))
          with (program_break s + header_bytes
                + size (mkBlock (align sz) true nullptr))
          by (simpl; lia).
        apply tiles_snoc; [| exact Hnew | simpl; apply align_range
                           | reflexivity].
        apply (tiles_ext (mem s)); [| exact (tidy_tiles s l Ti)].
        intros x b _ Hb. destruct (Hold x b Hb) as (b' & Hb' & Hs & _).
        eauto.
      * intros a Ha'. apply elem_of_app.
        destruct (Hdom a Ha') as [Hin | ->]; [left | right; left].
        apply (tidy_dom s l Ti). exact Hin.
    + rewrite (alloc_without_room_crashes _ _ _ _ _ W Hfind) in H;
        [discriminate | tauto].
    + rewrite (alloc_without_room_crashes _ _ _ _ _ W Hfind) in H;
        [discriminate | tauto].
  - left. unfold alloc in H. rewrite Hfind in H. simpl in H.
    destruct (Z.eqb_spec block nullptr) as [E | _]; [congruence |].
    simpl in H. unfold set_used, load, store in H.
    destruct (mem s1 !! block) as [b |] eqn:Hb; [| discriminate].
    simpl in H. injection H as <- <-.
    eapply tidy_update; [exact Ti1 | exact Hb | reflexivity | reflexivity].
Qed.

(** [init] on a tidy heap gives back the statics of the start, with the
    new mode: no header is left and the break is at the base. *)
Lemma init_of_tidy (mode : SearchMode) (s : Heap) (l : list Z) :
  tidy s l ->
  init mode s
  = mkHeap ∅ nullptr nullptr nullptr mode
           (break_base s) (break_base s) (break_limit s).
Proof.
  intros [W T D]. pose proof (wf_break s l W) as Hbrk.
  pose proof (wf_chain s l W) as Hl. unfold chain in Hl.
  unfold init, resetHeap. simpl.
  destruct (Z.eqb_spec (heapStart s) nullptr) as [E | Hne].
  - rewrite E in Hl. apply lseg_from_null in Hl as [-> _].
    simpl in T. pose proof (wf_top s [] W) as Ht. simpl in Ht.
    destruct (wf_cursor s [] W) as [Hc | Hc]; [| inversion Hc].
    assert (Hm : mem s = ∅).
    { apply map_empty. intros a.
      destruct (mem s !! a) as [b |] eqn:Hab; [| reflexivity].
      assert (Hin : a ∈ @nil Z) by (apply D; rewrite Hab; eauto).
      inversion Hin. }
    destruct s; simpl in *. subst. reflexivity.
  - destruct l as [| x l]; [apply lseg_nil_inv in Hl; congruence |].
    simpl in T. destruct T as (Hx & b & Hb & Hpos & T).
    pose proof Hl as Hl'. apply lseg_cons_inv in Hl' as (E & _).
    assert (Hh : heapStart s = break_base s) by congruence.
    rewrite Hh.
    destruct (Z.leb_spec (break_base s) (break_base s)); [| lia].
    destruct (Z.leb_spec (break_base s) (break_limit s)); [| lia].
    simpl. unfold move_break. simpl.
    apply tiles_le in T. unfold header_bytes, offsetof_data in T.
    destruct (Z.leb_spec (program_break s + header_bytes) (break_base s))
      as [Hup | _];
      [unfold header_bytes, offsetof_data in Hup; lia |].
    unfold set_searchStart, set_top, set_heapStart. simpl.
    f_equal. apply map_empty. intros a.
    apply map_lookup_filter_None. right. intros c Hc Hunder.
    simpl in Hunder.
    destruct (wf_bounds s _ W a) as [Ha _]; [rewrite Hc; eauto |].
    unfold header_bytes, offsetof_data in Hunder. lia.
Qed.

Lemma init_preserves_tidy (mode : SearchMode) (s : Heap) (l : list Z) :
  tidy s l -> tidy (init mode s) [].
Proof.
  intros Ti. pose proof (wf_break s l (tidy_wf s l Ti)) as Hbrk.
  constructor.
  - eapply init_preserves_wf. exact (tidy_wf s l Ti).
  - rewrite (init_of_tidy mode s l Ti). reflexivity.
  - rewrite (init_of_tidy mode s l Ti). intros a [b Hab].
    simpl in Hab. rewrite lookup_empty in Hab. discriminate.
Qed.

(** Every state of a run is tidy. *)
Lemma reachable_tidy (s : Heap) : reachable s -> exists l, tidy s l.
Proof.
  induction 1 as [base limit Hb | mode s _ [l Ti] | fuel sz s s' p _ [l Ti] Ha
                 | data s s' _ [l Ti] Hf].
  - exists []. apply tidy_initial. exact Hb.
  - exists []. eapply init_preserves_tidy. exact Ti.
  - destruct (alloc_preserves_tidy _ _ _ _ _ _ Ti Ha) as [Ti' | [_ Ti']]; eauto.
  - exists l. eapply free_preserves_tidy; eassumption.
Qed.

(** * Further properties of the interface *)

Lemma fits_of_block (s : Heap) (alignedSize a : Z) (b : Block) :
  mem s !! a = Some b -> skips alignedSize b = false ->
  fits s alignedSize a = true.
Proof. intros Hb Hs. unfold fits. rewrite Hb, Hs. reflexivity. Qed.

Lemma firstFit_loop_fits (s : Heap) (alignedSize : Z) (fuel : nat) :
  forall a r,
    firstFit_loop fuel s alignedSize a = Done r ->
    r <> nullptr -> fits s alignedSize r = true.
Proof.
  induction fuel as [| fuel IH]; intros a r H Hr; [discriminate |].
  simpl in H. destruct (Z.eqb_spec a nullptr) as [-> | Ha].
  - injection H as <-. congruence.
  - unfold load in H. destruct (mem s !! a) as [b |] eqn:Hb; [| discriminate].
    simpl in H. destruct (skips alignedSize b) eqn:Hs.
    + eapply IH; eassumption.
    + injection H as <-. eapply fits_of_block; eassumption.
Qed.

Lemma nextFit_loop_fits (s : Heap) (alignedSize : Z) (fuel : nat) :
  forall a s1 r,
    nextFit_loop fuel s alignedSize a = Done (s1, r) ->
    r <> nullptr -> fits s alignedSize r = true.
Proof.
  induction fuel as [| fuel IH]; intros a s1 r H Hr; [discriminate |].
  simpl in H. unfold load in H.
  destruct (mem s !! a) as [b |] eqn:Hb; [| discriminate]. simpl in H.
  destruct (skips alignedSize b) eqn:Hs.
  - destruct (next b =? nullptr).
    + destruct (searchStart s =? nullptr);
        [injection H as <- <-; congruence |].
      destruct (heapStart s =? searchStart s);
        [injection H as <- <-; congruence |].
      eapply IH; eassumption.
    + destruct (next b =? searchStart s);
        [injection H as <- <-; congruence |].
      eapply IH; eassumption.
  - injection H as <- <-. eapply fits_of_block; eassumption.
Qed.

Lemma bestFit_loop_fits (s : Heap) (alignedSize : Z) (fuel : nat) :
  forall a best r,
    best = nullptr \/ fits s alignedSize best = true ->
    bestFit_loop fuel s alignedSize a best = Done r ->
    r <> nullptr -> fits s alignedSize r = true.
Proof.
  induction fuel as [| fuel IH]; intros a best r Hbest H Hr; [discriminate |].
  simpl in H. destruct (Z.eqb_spec a nullptr) as [-> | Ha].
  - injection H as <-. destruct Hbest; [congruence | assumption].
  - unfold load in H. destruct (mem s !! a) as [b |] eqn:Hb; [| discriminate].
    simpl in H. destruct (skips alignedSize b) eqn:Hs.
    + eapply IH; eassumption.
    + pose proof (fits_of_block _ _ _ _ Hb Hs) as Hfa.
      destruct (size b =? alignedSize).
      * injection H as <-. exact Hfa.
      * destruct (best =? nullptr); simpl in H.
        -- eapply IH; [right; exact Hfa | eassumption | assumption].
        -- destruct (mem s !! best) as [bb |]; [| discriminate].
           simpl in H. destruct (size b <? size bb).
           ++ eapply IH; [right; exact Hfa | eassumption | assumption].
           ++ eapply IH; eassumption.
Qed.

(** Whatever the mode, a block that the search returns is free and at
    least as large as the request. *)
Lemma findBlock_fits (fuel : nat) (alignedSize : Z) (s s1 : Heap) (r : Z) :
  findBlock fuel alignedSize s = Done (s1, r) ->
  r <> nullptr -> fits s alignedSize r = true.
Proof.
  unfold findBlock, firstFit, bestFit, nextFit. intros H Hr.
  destruct (searchMode s).
  - destruct (firstFit_loop fuel s alignedSize (heapStart s)) as [r' | |] eqn:E;
      try discriminate.
    injection H as <- <-. eapply firstFit_loop_fits; eassumption.
  - destruct ((if searchStart s =? nullptr then heapStart s else searchStart s)
              =? nullptr).
    + injection H as <- <-. congruence.
    + eapply nextFit_loop_fits; eassumption.
  - destruct (bestFit_loop fuel s alignedSize (heapStart s) nullptr)
      as [r' | |] eqn:E; try discriminate.
    injection H as <- <-.
    eapply bestFit_loop_fits; [left; reflexivity | eassumption | assumption].
Qed.

Lemma align_ge (n : Z) : 0 <= n <= 2 ^ 64 - 8 -> n <= align n.
Proof.
  intros Hn. rewrite align_div. rewrite Z.mod_small by lia.
  Z.div_mod_to_equations. lia.
Qed.

(** What a call of [alloc] that returns did: it took a block that the
    search found, or it put a block at the old break. *)
Lemma alloc_cases (fuel : nat) (sz : Z) (s s' : Heap) (l : list Z) (p : Z) :
  wf s l ->
  alloc fuel sz s = Done (s', p) ->
  (exists s1 block b,
     findBlock fuel (align sz) s = Done (s1, block) /\
     block <> nullptr /\ p = data_of block /\
     mem s !! block = Some b /\
     fits s (align sz) block = true /\
     mem s' = <[block := mkBlock (size b) true (next b)]> (mem s) /\
     searchStart s' = searchStart s1 /\
     program_break s' = program_break s) \/
  (exists s1,
     findBlock fuel (align sz) s = Done (s1, nullptr) /\
     p = data_of (program_break s) /\
     mem s !! program_break s = None /\
     mem s' !! program_break s = Some (mkBlock (align sz) true nullptr) /\
     program_break s' = program_break s + header_bytes + align sz /\
     wf s' (l ++ [program_break s]) /\
     forall a b, mem s !! a = Some b ->
       exists b', mem s' !! a = Some b' /\
                  size b' = size b /\ used b' = used b).
Proof.
  intros W H.
  destruct (findBlock fuel (align sz) s) as [[s1 block] | |] eqn:Hfind;
    try (unfold alloc in H; rewrite Hfind in H; discriminate).
  destruct (Z.eq_dec block nullptr) as [-> | Hblock].
  - right.
    destruct (Z_le_dec header_bytes (signed (allocSize (align sz))))
      as [Hd | Hd];
      [destruct (Z_le_dec (program_break s + signed (allocSize (align sz)))
                          (break_limit s)) as [Hlim | Hlim] |].
    + destruct (alloc_grows _ _ _ _ _ W Hfind Hd Hlim)
        as (s'' & Ha & W'' & Hnew & Hbrk & Hold).
      rewrite Ha in H. injection H as <- <-.
      exists s1. split; [reflexivity |]. split; [reflexivity |].
      split; [eapply wf_break_unmapped; exact W |].
      split; [exact Hnew |].
      split; [rewrite Hbrk, (footprint_exact sz Hd); lia |].
      split; assumption.
    + rewrite (alloc_without_room_crashes _ _ _ _ _ W Hfind) in H;
        [discriminate | tauto].
    + rewrite (alloc_without_room_crashes _ _ _ _ _ W Hfind) in H;
        [discriminate | tauto].
  - left.
    destruct (alloc_never_splits _ _ _ _ _ Hfind Hblock)
      as (b & s'' & Hb & Ha & Hm & _ & _ & Hc & Hp & _).
    rewrite Ha in H. injection H as <- <-.
    exists s1, block, b. split; [reflexivity |].
    split; [exact Hblock |]. split; [reflexivity |].
    split; [exact Hb |].
    split; [eapply findBlock_fits; eassumption |].
    auto.
Qed.

Lemma chain_unique (s : Heap) (l l' : list Z) :
  chain s l -> chain s l' -> l = l'.
Proof. unfold chain. apply lseg_functional. Qed.

Lemma one_used_block_reachable : reachable one_used_block.
Proof.
  apply (reach_alloc 1 16 (fresh FirstFit) one_used_block 4120).
  - apply reach_init. apply reach_initial. lia.
  - exact one_used_block_reached.
Qed.

Lemma used_then_free_reachable : reachable used_then_free.
Proof.
  apply (reach_free 4160
           (mkHeap (<[ 4096 := mkBlock 16 true 4136 ]>
                      {[ 4136 := mkBlock 32 true 0 ]})
                   4096 4136 0 FirstFit 4192 4096 65536)).
  - apply (reach_alloc 2 32 one_used_block _ 4160).
    + exact one_used_block_reachable.
    + vm_compute. reflexivity.
  - vm_compute. reflexivity.
Qed.

(** [nextFit], lines 199-242, before any hit.  While the cursor is unset
    (after [init], and until next-fit finds a block), [nextFit] returns
    the block that [firstFit] returns, within the same fuel, and the
    state that it leaves has [searchStart] equal to that block and every
    other component as before; when [firstFit] returns [nullptr] so does
    [nextFit], and the state is as before. *)
Theorem nextFit_without_cursor_is_firstFit
    (s : Heap) (l : list Z) (alignedSize : Z) (fuel : nat) :
  chain s l ->
  searchStart s = nullptr ->
  (length l < fuel)%nat ->
  exists r,
    firstFit fuel alignedSize s = Done r /\
    nextFit fuel alignedSize s
    = Done (if r =? nullptr then s
            else mkHeap (mem s) (heapStart s) (top s) r (searchMode s)
                        (program_break s) (break_base s) (break_limit s),
            r).
Proof.
  intros Hl Hc Hf. pose proof Hl as Hl'. unfold chain in Hl'.
  exists (default nullptr (find (fits s alignedSize) l)). split.
  - unfold firstFit. apply firstFit_loop_scan; assumption.
  - rewrite (nextFit_scan s l alignedSize fuel Hl) by (auto; lia).
    unfold scan_order. rewrite Hc. simpl.
    destruct (find (fits s alignedSize) l) as [a |] eqn:Hfind; simpl;
      [| reflexivity].
    apply find_some in Hfind as [Hin _].
    apply list_elem_of_In in Hin.
    destruct (lseg_mapped _ _ _ _ _ Hl' Hin) as [Ha _].
    destruct (Z.eqb_spec a nullptr); [congruence | reflexivity].
Qed.

(** In [used_then_free] the cursor is unset and the request of 32 bytes
    gets the second block, 4136, from both searches; next-fit leaves the
    cursor there. *)
Lemma nextFit_without_cursor_is_firstFit_witness :
  exists r,
    firstFit 3 32 used_then_free = Done r /\
    nextFit 3 32 used_then_free
    = Done (if r =? nullptr then used_then_free
            else mkHeap (mem used_then_free) 4096 4136 r FirstFit
                        4192 4096 65536,
            r).
Proof.
  apply (nextFit_without_cursor_is_firstFit used_then_free [4096; 4136] 32 3).
  - apply walk_sound with (fuel := 2%nat). vm_compute. reflexivity.
  - reflexivity.
  - simpl. lia.
Defined.

Lemma session_reachable (s : Heap) : session s -> reachable s.
Proof.
  induction 1 as [mode base limit Hb | fuel sz s s' p _ IH _ Ha
                 | data s s' _ IH Hf].
  - apply reach_init. apply reach_initial. exact Hb.
  - eapply reach_alloc; eassumption.
  - eapply reach_free; eassumption.
Qed.

(** [alloc] and [free] after [init].  In every state of a run that starts
    with [init] on the statics of the start and then calls [alloc], for
    requests of at most [2^63 - 32] bytes, and [free] (calls that return),
    the heap is well formed: following [next] from [heapStart] reaches
    [nullptr] after the finitely many headers of a list [l], [top] is the
    last block of that chain, the cursor of next-fit is unset or on a
    block of the chain, and every header lies between the base of the
    region and the break. *)
Theorem session_is_well_formed (s : Heap) :
  session s -> exists l, wf s l.
Proof.
  intros S. destruct (reachable_tidy s (session_reachable s S)) as [l Ti].
  exists l. apply Ti.
Qed.

Lemma session_is_well_formed_witness : exists l, wf used_then_free l.
Proof.
  apply session_is_well_formed.
  apply (session_free 4160
           (mkHeap (<[ 4096 := mkBlock 16 true 4136 ]>
                      {[ 4136 := mkBlock 32 true 0 ]})
                   4096 4136 0 FirstFit 4192 4096 65536)).
  - apply (session_alloc 2 32 one_used_block _ 4160).
    + apply (session_alloc 1 16 (fresh FirstFit) one_used_block 4120).
      * apply session_start. lia.
      * lia.
      * vm_compute. reflexivity.
    + lia.
    + vm_compute. reflexivity.
  - vm_compute. reflexivity.
Defined.

(** [alloc] and [free] after [init].  In every state of a run that starts
    with [init] on the statics of the start and then calls [alloc], for
    requests of at most [2^63 - 32] bytes, and [free]: every block, header
    and payload, lies between the base of the region and the break, also
    when it is the only one; and two different blocks do not overlap, the
    header and the payload of one ending before the header of the other
    starts. *)
Theorem blocks_never_overlap (s : Heap) :
  session s ->
  (forall x bx,
     mem s !! x = Some bx ->
     break_base s <= x /\ 0 <= size bx /\
     data_of x + size bx <= program_break s) /\
  (forall x y bx by',
     mem s !! x = Some bx ->
     mem s !! y = Some by' ->
     x <> y ->
     data_of x + size bx <= y \/ data_of y + size by' <= x).
Proof.
  intros S.
  destruct (reachable_tidy s (session_reachable s S)) as [l [W T D]].
  unfold data_of. change offsetof_data with header_bytes. split.
  - intros x bx Hx.
    assert (Hxl : x ∈ l) by (apply D; rewrite Hx; eauto).
    destruct (tiles_inside _ _ _ _ _ _ T Hxl Hx) as [H1 H2].
    split; [exact H1 |]. split; [| exact H2].
    eapply tiles_size; eassumption.
  - intros x y bx by' Hx Hy Hne.
    assert (Hxl : x ∈ l) by (apply D; rewrite Hx; eauto).
    assert (Hyl : y ∈ l) by (apply D; rewrite Hy; eauto).
    eapply tiles_apart; eassumption.
Qed.

Lemma blocks_never_overlap_witness :
  (forall x bx,
     mem used_then_free !! x = Some bx ->
     break_base used_then_free <= x /\ 0 <= size bx /\
     data_of x + size bx <= program_break used_then_free) /\
  (forall x y bx by',
     mem used_then_free !! x = Some bx ->
     mem used_then_free !! y = Some by' ->
     x <> y ->
     data_of x + size bx <= y \/ data_of y + size by' <= x).
Proof.
  apply (blocks_never_overlap used_then_free).
  apply (session_free 4160
           (mkHeap (<[ 4096 := mkBlock 16 true 4136 ]>
                      {[ 4136 := mkBlock 32 true 0 ]})
                   4096 4136 0 FirstFit 4192 4096 65536)).
  - apply (session_alloc 2 32 one_used_block _ 4160).
    + apply (session_alloc 1 16 (fresh FirstFit) one_used_block 4120).
      * apply session_start. lia.
      * lia.
      * vm_compute. reflexivity.
    + lia.
    + vm_compute. reflexivity.
  - vm_compute. reflexivity.
Defined.

(** [init] and [resetHeap], lines 94-115.  In every state of a run,
    [init] puts the break back at the base, leaves no header and no
    pointer behind, and installs the mode: the result is what [init]
    gives on the statics of the start. *)
Theorem init_restores_the_start (mode : SearchMode) (s : Heap) :
  reachable s ->
  init mode s
  = mkHeap ∅ nullptr nullptr nullptr mode
           (break_base s) (break_base s) (break_limit s) /\
  init mode s = init mode (initial (break_base s) (break_limit s)).
Proof.
  intros R. destruct (reachable_tidy s R) as [l Ti].
  rewrite (init_of_tidy mode s l Ti). split; reflexivity.
Qed.

Lemma init_restores_the_start_witness :
  init NextFit used_then_free
  = mkHeap ∅ nullptr nullptr nullptr NextFit 4096 4096 65536 /\
  init NextFit used_then_free = init NextFit (initial 4096 65536).
Proof.
  apply (init_restores_the_start NextFit used_then_free).
  exact used_then_free_reachable.
Defined.

(** [alloc] and [free] on the chain.  In every state of a run, [free]
    leaves the chain the list of blocks that it was, and [alloc] leaves
    it as it was or adds one block at its end, at the address where the
    break was: no call removes or reorders a block. *)
Theorem chain_only_grows_at_the_end (s : Heap) (l : list Z) :
  reachable s ->
  chain s l ->
  (forall data s', free data s = Done s' -> chain s' l) /\
  (forall fuel sz s' p,
     alloc fuel sz s = Done (s', p) ->
     chain s' l \/
     (getHeader p = program_break s /\ chain s' (l ++ [getHeader p]))).
Proof.
  intros R Hl. destruct (reachable_tidy s R) as [l0 Ti].
  assert (l0 = l) by (eapply chain_unique; [apply Ti | exact Hl]). subst l0.
  split.
  - intros data s' Hf.
    apply (wf_chain s' l). eapply free_preserves_wf; [apply Ti | exact Hf].
  - intros fuel sz s' p Ha.
    destruct (alloc_preserves_tidy _ _ _ _ _ _ Ti Ha) as [Ti' | [E Ti']].
    + left. apply Ti'.
    + right. split; [exact E | apply Ti'].
Qed.

Lemma chain_only_grows_at_the_end_witness :
  (forall data s', free data used_then_free = Done s' ->
                   chain s' [4096; 4136]) /\
  (forall fuel sz s' p,
     alloc fuel sz used_then_free = Done (s', p) ->
     chain s' [4096; 4136] \/
     (getHeader p = program_break used_then_free /\
      chain s' ([4096; 4136] ++ [getHeader p]))).
Proof.
  apply (chain_only_grows_at_the_end used_then_free [4096; 4136]).
  - exact used_then_free_reachable.
  - apply walk_sound with (fuel := 2%nat). vm_compute. reflexivity.
Defined.

(** [alloc], lines 342-379: "a block of memory of (at least) [size]
    bytes".  In every state of a run that starts with [init] on the
    statics of the start and then calls [alloc], for requests of at most
    [2^63 - 32] bytes, and [free]: for a request of at most [2^63 - 32]
    bytes, the handle that [alloc] returns resolves to a block that is
    marked used, whose size is at least the aligned request, and whose
    payload ends under the break. *)
Theorem alloc_grants_at_least_the_request
    (fuel : nat) (sz : Z) (s s' : Heap) (p : Z) :
  session s ->
  0 <= sz <= 2 ^ 63 - 32 ->
  alloc fuel sz s = Done (s', p) ->
  exists b,
    mem s' !! getHeader p = Some b /\
    used b = true /\
    sz <= align sz <= size b /\
    p + size b <= program_break s'.
Proof.
  intros S Hsz Ha.
  destruct (reachable_tidy s (session_reachable s S)) as [l Ti].
  pose proof (tidy_wf s l Ti) as W.
  pose proof (align_ge sz ltac:(lia)) as Hal.
  assert (Hinside : forall b, mem s' !! getHeader p = Some b ->
                              p + size b <= program_break s').
  { intros b Hb.
    assert (Ti' : exists l', tidy s' l').
    { destruct (alloc_preserves_tidy _ _ _ _ _ _ Ti Ha) as [T' | [_ T']];
        eauto. }
    destruct Ti' as [l' [W' T' D']].
    assert (Hin : getHeader p ∈ l') by (apply D'; rewrite Hb; eauto).
    destruct (tiles_inside _ _ _ _ _ _ T' Hin Hb) as [_ H].
    unfold getHeader, header_bytes, offsetof_data, sizeof_data,
      sizeof_Block in *. lia. }
  destruct (alloc_cases _ _ _ _ _ _ W Ha)
    as [(s1 & block & b & _ & _ & -> & Hb & Hfit & Hm & _)
       | (s1 & _ & -> & _ & Hnew & _)];
    rewrite getHeader_of_payload in *.
  - apply fits_block in Hfit as (b0 & Hb0 & _ & Hle).
    assert (b0 = b) by congruence. subst b0.
    assert (Hb' : mem s' !! block = Some (mkBlock (size b) true (next b)))
      by (rewrite Hm; apply lookup_insert_eq).
    eexists. split; [exact Hb' |]. split; [reflexivity |].
    split; [simpl; lia | apply (Hinside _ Hb')].
  - eexists. split; [exact Hnew |]. split; [reflexivity |].
    split; [simpl; lia | apply (Hinside _ Hnew)].
Qed.

(** The largest request of the range, on a region large enough: the block
    is granted with [2^63 - 32] bytes. *)
Lemma alloc_grants_at_least_the_request_witness :
  exists b,
    mem (mkHeap {[ 4096 := mkBlock (2 ^ 63 - 32) true 0 ]}
                4096 4096 0 FirstFit (4096 + 2 ^ 63 - 8) 4096 (2 ^ 64))
      !! getHeader 4120 = Some b /\
    used b = true /\
    2 ^ 63 - 32 <= align (2 ^ 63 - 32) <= size b /\
    4120 + size b <= 4096 + 2 ^ 63 - 8.
Proof.
  apply (alloc_grants_at_least_the_request 1 (2 ^ 63 - 32)
           (init FirstFit (initial 4096 (2 ^ 64)))
           (mkHeap {[ 4096 := mkBlock (2 ^ 63 - 32) true 0 ]}
                   4096 4096 0 FirstFit (4096 + 2 ^ 63 - 8) 4096 (2 ^ 64))
           4120).
  - apply session_start. lia.
  - lia.
  - vm_compute. reflexivity.
Defined.

(** [alloc], lines 342-379, on the other blocks.  In every state of a
    run, the block that [alloc] hands out was free or did not exist (it
    is then at the old break), and every other block keeps its size and
    its used flag: a block in use is never handed out again and never
    resized by a later [alloc]. *)
Theorem alloc_hands_out_only_free_memory
    (fuel : nat) (sz : Z) (s s' : Heap) (p : Z) :
  reachable s ->
  alloc fuel sz s = Done (s', p) ->
  match mem s !! getHeader p with
  | Some b => used b = false
  | None => getHeader p = program_break s
  end /\
  forall a b, a <> getHeader p -> mem s !! a = Some b ->
    exists b', mem s' !! a = Some b' /\ size b' = size b /\ used b' = used b.
Proof.
  intros R Ha. destruct (reachable_tidy s R) as [l Ti].
  pose proof (tidy_wf s l Ti) as W.
  destruct (alloc_cases _ _ _ _ _ _ W Ha)
    as [(s1 & block & b & _ & _ & -> & Hb & Hfit & Hm & _)
       | (s1 & _ & -> & Hfree & _ & _ & _ & Hold)];
    rewrite getHeader_of_payload.
  - split.
    + rewrite Hb. apply fits_block in Hfit as (b0 & Hb0 & Hu & _). congruence.
    + intros a c Hne Hc. exists c. rewrite Hm.
      rewrite lookup_insert_ne by congruence. auto.
  - split; [rewrite Hfree; reflexivity |].
    intros a c _ Hc. apply Hold. exact Hc.
Qed.

Lemma alloc_hands_out_only_free_memory_witness :
  match mem used_then_free !! getHeader 4160 with
  | Some b => used b = false
  | None => getHeader 4160 = program_break used_then_free
  end /\
  forall a b, a <> getHeader 4160 -> mem used_then_free !! a = Some b ->
    exists b', mem (mkHeap (<[ 4096 := mkBlock 16 true 4136 ]>
                              {[ 4136 := mkBlock 32 true 0 ]})
                           4096 4136 0 FirstFit 4192 4096 65536) !! a = Some b' /\
               size b' = size b /\ used b' = used b.
Proof.
  apply (alloc_hands_out_only_free_memory 3 24 used_then_free).
  - exact used_then_free_reachable.
  - vm_compute. reflexivity.
Defined.

Lemma find_app_none {A} (f : A -> bool) (l1 l2 : list A) :
  find f l1 = None -> find f (l1 ++ l2) = find f l2.
Proof.
  induction l1 as [| x l1 IH]; simpl; [reflexivity |].
  destruct (f x); [discriminate | exact IH].
Qed.

Lemma find_ext_in {A} (f g : A -> bool) (l : list A) :
  (forall x, In x l -> f x = g x) -> find f l = find g l.
Proof.
  induction l as [| x l IH]; intros H; simpl; [reflexivity |].
  rewrite (H x) by (left; reflexivity).
  destruct (g x); [reflexivity |]. apply IH. intros y Hy. apply H.
  right. exact Hy.
Qed.

Lemma set_mem_set_mem (m m' : gmap Z Block) (s : Heap) :
  set_mem m (set_mem m' s) = set_mem m s.
Proof. reflexivity. Qed.

Lemma firstFit_findBlock (fuel : nat) (alignedSize : Z) (s : Heap) (l : list Z) :
  searchMode s = FirstFit -> chain s l -> (length l < fuel)%nat ->
  findBlock fuel alignedSize s
  = Done (s, default nullptr (find (fits s alignedSize) l)).
Proof.
  intros Hmode Hl Hf. unfold findBlock, firstFit. rewrite Hmode.
  rewrite (firstFit_loop_scan s alignedSize l) by assumption.
  reflexivity.
Qed.

(** [alloc] after [free], in first-fit mode (the reuse test of the
    exercise: [p1 = alloc(..); free(p1); p2 = alloc(..)] gives
    [p2 == p1]).  In every state of a run, when [alloc] returns a handle,
    [free] of that handle returns, and the same request made again
    returns the same handle and leads to the same state as the first
    call. *)
Theorem alloc_free_alloc_gives_the_same_block
    (fuel : nat) (sz : Z) (s s' : Heap) (p : Z) (l : list Z) :
  reachable s ->
  searchMode s = FirstFit ->
  chain s l ->
  (length l + 1 < fuel)%nat ->
  alloc fuel sz s = Done (s', p) ->
  exists s2, free p s' = Done s2 /\ alloc fuel sz s2 = Done (s', p).
Proof.
  intros R Hmode Hl Hf Ha. destruct (reachable_tidy s R) as [l0 Ti].
  assert (l0 = l) by (eapply chain_unique; [apply Ti | exact Hl]). subst l0.
  pose proof (tidy_wf s l Ti) as W.
  pose proof (firstFit_findBlock fuel (align sz) s l Hmode Hl ltac:(lia))
    as Hfind.
  destruct (alloc_cases _ _ _ _ _ _ W Ha)
    as [(s1 & block & b & Hfind' & Hblock & -> & Hb & Hfit & _)
       | (s1 & Hfind' & -> & Hfree & Hnew & _ & W' & Hold)].
  - (* the block was in the chain: freeing it gives the state before *)
    apply fits_block in Hfit as (b0 & Hb0 & Hu & _).
    assert (b0 = b) by congruence. subst b0.
    assert (Hs' : s' = set_mem (<[block := mkBlock (size b) true (next b)]>
                                  (mem s)) s).
    { rewrite Hfind in Hfind'. injection Hfind' as <- E.
      unfold alloc in Ha. rewrite Hfind, E in Ha. cbn [bind] in Ha.
      destruct (Z.eqb_spec block nullptr) as [E' | _]; [congruence |].
      cbn [negb] in Ha. rewrite (set_used_spec s block true b Hb) in Ha.
      cbn [bind] in Ha. injection Ha as <-. reflexivity. }
    exists s. split; [| exact Ha].
    erewrite free_spec
      by (rewrite getHeader_of_payload, Hs'; simpl; apply lookup_insert_eq).
    rewrite getHeader_of_payload, Hs'. simpl.
    rewrite set_mem_set_mem, insert_insert_eq.
    destruct b as [bs bu bn]; simpl in *; subst bu.
    rewrite insert_id by exact Hb. rewrite set_mem_same. reflexivity.
  - (* the block was appended: it is the only one that fits *)
    set (B := program_break s) in *.
    set (nb := mkBlock (align sz) true nullptr) in *.
    pose proof (alloc_region _ _ _ _ _ Ha) as (_ & _ & Hmode' & _).
    assert (Hnone : find (fits s (align sz)) l = None).
    { rewrite Hfind in Hfind'. injection Hfind' as _ E.
      destruct (find (fits s (align sz)) l) as [a |] eqn:Hfa; [| reflexivity].
      simpl in E. subst a. apply find_some in Hfa as [Hin _].
      apply list_elem_of_In in Hin.
      destruct (lseg_mapped _ _ _ _ _ Hl Hin) as [Hnn _]. congruence. }
    eexists. split.
    { apply free_spec. rewrite getHeader_of_payload. exact Hnew. }
    rewrite getHeader_of_payload. simpl.
    set (s2 := set_mem (<[B := mkBlock (align sz) false nullptr]> (mem s')) s').
    assert (W2 : wf s2 (l ++ [B]))
      by (eapply wf_update; [exact W' | exact Hnew | reflexivity]).
    assert (HB2 : mem s2 !! B = Some (mkBlock (align sz) false nullptr))
      by apply lookup_insert_eq.
    assert (HfitB : fits s2 (align sz) B = true).
    { unfold fits, skips. rewrite HB2. simpl.
      destruct (Z.ltb_spec (align sz) (align sz)); [lia | reflexivity]. }
    assert (Hsame : forall x, In x l ->
                      fits s2 (align sz) x = fits s (align sz) x).
    { intros x Hx. apply list_elem_of_In in Hx.
      destruct (lseg_mapped _ _ _ _ _ Hl Hx) as [_ [c Hc]].
      destruct (Hold x c Hc) as (c' & Hc' & Hsz & Hus).
      assert (x <> B) by congruence.
      unfold fits, skips. simpl.
      rewrite lookup_insert_ne by congruence. rewrite Hc', Hc, Hsz, Hus.
      reflexivity. }
    assert (Hfind2 : findBlock fuel (align sz) s2 = Done (s2, B)).
    { rewrite (firstFit_findBlock fuel (align sz) s2 (l ++ [B]));
        [| simpl; congruence | apply W2 | rewrite length_app; simpl; lia].
      rewrite find_app_none
        by (rewrite (find_ext_in _ _ _ Hsame); exact Hnone).
      simpl. rewrite HfitB. reflexivity. }
    assert (HBn : B <> nullptr).
    { pose proof (wf_break s l W). unfold B, nullptr. lia. }
    unfold alloc. rewrite Hfind2. cbn [bind].
    destruct (Z.eqb_spec B nullptr) as [E | _]; [congruence |].
    cbn [negb]. rewrite (set_used_spec s2 B true _ HB2). cbn [bind].
    simpl. rewrite insert_insert_eq.
    rewrite insert_id by exact Hnew.
    change (set_mem (mem s') s2) with (set_mem (mem s') s').
    rewrite set_mem_same. reflexivity.
Qed.

Lemma alloc_free_alloc_gives_the_same_block_witness :
  exists s2,
    free 4120 one_used_block = Done s2 /\
    alloc 2 9 s2 = Done (one_used_block, 4120).
Proof.
  apply (alloc_free_alloc_gives_the_same_block 2 9 (fresh FirstFit)
           one_used_block 4120 []).
  - apply reach_init. apply reach_initial. lia.
  - reflexivity.
  - constructor.
  - simpl. lia.
  - vm_compute. reflexivity.
Defined.

Lemma next_fit_after_o3_reachable : reachable next_fit_after_o3.
Proof.
  pose proof (reach_init NextFit _ (reach_initial 4096 65536 ltac:(lia))) as R.
  eapply (reach_alloc 5 8) in R; [| vm_compute; reflexivity].
  eapply (reach_alloc 5 8) in R; [| vm_compute; reflexivity].
  eapply (reach_alloc 5 8) in R; [| vm_compute; reflexivity].
  eapply (reach_alloc 5 16) in R; [| vm_compute; reflexivity].
  eapply (reach_alloc 5 16) in R; [| vm_compute; reflexivity].
  eapply (reach_free 4216) in R; [| vm_compute; reflexivity].
  eapply (reach_free 4256) in R; [| vm_compute; reflexivity].
  eapply (reach_alloc 5 16) in R; [| vm_compute; reflexivity].
  vm_compute. vm_compute in R. exact R.
Qed.

(** [alloc] in next-fit mode (the next-fit test of [main]).  In every
    state of a run, with one unit of fuel per block, when some block of
    the chain fits the aligned request, [alloc] hands out the first one
    in the order that starts at the cursor and goes around the chain,
    marks it used and leaves the cursor on it; the rest of the state is
    as before. *)
Theorem alloc_next_fit_moves_the_cursor
    (fuel : nat) (sz : Z) (s : Heap) (l : list Z) (a : Z) :
  reachable s ->
  searchMode s = NextFit ->
  chain s l ->
  (length l <= fuel)%nat ->
  find (fits s (align sz)) (scan_order s l) = Some a ->
  exists b,
    mem s !! a = Some b /\ used b = false /\
    alloc fuel sz s
    = Done (mkHeap (<[a := mkBlock (size b) true (next b)]> (mem s))
                   (heapStart s) (top s) a NextFit
                   (program_break s) (break_base s) (break_limit s),
            data_of a).
Proof.
  intros R Hmode Hl Hf Hfind. destruct (reachable_tidy s R) as [l0 Ti].
  assert (l0 = l) by (eapply chain_unique; [apply Ti | exact Hl]). subst l0.
  pose proof (tidy_wf s l Ti) as W.
  pose proof Hfind as Hfind'. apply find_some in Hfind' as [_ Hfit].
  apply fits_block in Hfit as (b & Hb & Hu & _).
  exists b. split; [exact Hb |]. split; [exact Hu |].
  assert (Ha : a <> nullptr).
  { intros ->. rewrite (wf_null_unmapped s l W) in Hb. discriminate. }
  unfold alloc, findBlock. rewrite Hmode.
  rewrite (nextFit_scan s l (align sz) fuel Hl (wf_cursor s l W) Hf).
  rewrite Hfind. cbn [nextFit_result bind].
  destruct (Z.eqb_spec a nullptr) as [E | _]; [congruence |]. cbn [negb].
  rewrite (set_used_spec (set_searchStart a s) a true b Hb). cbn [bind].
  unfold set_mem, set_searchStart. simpl. rewrite Hmode. reflexivity.
Qed.

Lemma alloc_next_fit_moves_the_cursor_witness :
  exists b,
    mem next_fit_after_o3 !! 4232 = Some b /\ used b = false /\
    alloc 5 16 next_fit_after_o3
    = Done (mkHeap (<[4232 := mkBlock (size b) true (next b)]>
                      (mem next_fit_after_o3))
                   4096 4232 4232 NextFit 4272 4096 65536,
            data_of 4232).
Proof.
  apply (alloc_next_fit_moves_the_cursor 5 16 next_fit_after_o3
           [4096; 4128; 4160; 4192; 4232] 4232).
  - exact next_fit_after_o3_reachable.
  - reflexivity.
  - apply walk_sound with (fuel := 5%nat). vm_compute. reflexivity.
  - simpl. lia.
  - vm_compute. reflexivity.
Defined.

(** [listAllocate], [canSplit] and [split], lines 303-329.  For a block of
    the heap, on a heap without a header at the null address:
    when the block is larger than the request, [canSplit] holds, [split]
    returns [nullptr] and [listAllocate] writes through it; otherwise
    [listAllocate] marks the block used, records the request as its size
    (which is then at least the size it had) and returns the block. *)
Theorem listAllocate_splits_into_nothing
    (s : Heap) (block sz : Z) (b : Block) :
  mem s !! block = Some b ->
  mem s !! nullptr = None ->
  (sz < size b ->
   canSplit block sz s = Done true /\
   split block sz s = Done nullptr /\
   listAllocate block sz s = Crash) /\
  (size b <= sz ->
   canSplit block sz s = Done false /\
   listAllocate block sz s
   = Done (set_mem (<[block := mkBlock sz true (next b)]> (mem s)) s, block)).
Proof.
  intros Hb Hnull. unfold listAllocate, canSplit, split, load.
  rewrite Hb. cbn [bind]. split; intros Hsz.
  - destruct (Z.ltb_spec sz (size b)) as [_ | Hge]; [| lia].
    cbn [bind]. repeat split.
    unfold set_used, load. rewrite Hnull. reflexivity.
  - destruct (Z.ltb_spec sz (size b)) as [Hlt | _]; [lia |].
    split; [reflexivity |]. cbn [bind].
    rewrite (set_used_spec s block true b Hb). cbn [bind].
    erewrite set_size_spec by (simpl; apply lookup_insert_eq).
    cbn [bind]. simpl. rewrite insert_insert_eq. reflexivity.
Qed.

Lemma listAllocate_splits_into_nothing_witness :
  (16 < 64 ->
   canSplit 4128 16 best_fit_before_last = Done true /\
   split 4128 16 best_fit_before_last = Done nullptr /\
   listAllocate 4128 16 best_fit_before_last = Crash) /\
  (64 <= 16 ->
   canSplit 4128 16 best_fit_before_last = Done false /\
   listAllocate 4128 16 best_fit_before_last
   = Done (set_mem (<[4128 := mkBlock 16 true 4216]>
                      (mem best_fit_before_last)) best_fit_before_last,
           4128)).
Proof.
  apply (listAllocate_splits_into_nothing best_fit_before_last 4128 16
           (mkBlock 64 false 4216)).
  - vm_compute. reflexivity.
  - vm_compute. reflexivity.
Defined.

(** [align], lines 120-123.  On the values that do not wrap, aligning
    twice is aligning once, and a larger request never gets a smaller
    aligned size. *)
Theorem align_is_idempotent_and_monotone (n m : Z) :
  0 <= n <= m ->
  m <= 2 ^ 64 - 8 ->
  align (align n) = align n /\
  align (align m) = align m /\
  align n <= align m.
Proof.
  intros Hn Hm.
  assert (Hidem : forall k, 0 <= k <= 2 ^ 64 - 8 -> align (align k) = align k).
  { intros k Hk. rewrite (align_div (align k)), (align_div k).
    rewrite (Z.mod_small (k + 7)) by lia.
    assert (H8 : 0 <= 8 * ((k + 7) / 8) + 7 < 2 ^ 64)
      by (Z.div_mod_to_equations; lia).
    rewrite Z.mod_small by exact H8.
    Z.div_mod_to_equations. lia. }
  split; [apply Hidem; lia |]. split; [apply Hidem; lia |].
  rewrite (align_div n), (align_div m).
  rewrite !Z.mod_small by lia.
  assert ((n + 7) / 8 <= (m + 7) / 8) by (apply Z.div_le_mono; lia).
  lia.
Qed.

Lemma align_is_idempotent_and_monotone_witness :
  align (align 9) = align 9 /\ align (align 17) = align 17 /\
  align 9 <= align 17.
Proof.
  apply (align_is_idempotent_and_monotone 9 17); lia.
Defined.

(** * The earlier versions of [alloc] *)

Lemma footprint_small (sz : Z) :
  align sz + header_bytes < 2 ^ 63 ->
  signed (allocSize (align sz)) = header_bytes + align sz.
Proof.
  intros Hs. pose proof (align_range sz) as Hr.
  unfold header_bytes, offsetof_data in *.
  assert (E : allocSize (align sz) = align sz + 24).
  { unfold allocSize, wrap, sizeof_Block, sizeof_data.
    rewrite Zminus_mod_idemp_l. rewrite Z.mod_small; lia. }
  rewrite E. rewrite signed_small; lia.
Qed.

(** [alloc] of the second exercise, against the last version in first-fit
    mode.  On a heap whose chain is [l], with one unit of fuel per block
    and one more: when a block fits, the second exercise returns the
    payload of the first such block and changes nothing, so that the
    block stays free and the same request gets it again; when no block
    fits, it does what the last version does. *)
Theorem reuse_alloc_leaves_the_block_free
    (fuel : nat) (sz : Z) (s : Heap) (l : list Z) :
  chain s l ->
  searchMode s = FirstFit ->
  (length l < fuel)%nat ->
  match find (fits s (align sz)) l with
  | Some a =>
      Reuse.alloc fuel sz s = Done (s, data_of a) /\
      exists b, mem s !! a = Some b /\ used b = false
  | None => Reuse.alloc fuel sz s = alloc fuel sz s
  end.
Proof.
  intros Hl Hmode Hf. pose proof Hl as Hl'. unfold chain in Hl'.
  unfold Reuse.alloc, Reuse.findBlock, alloc.
  rewrite (firstFit_findBlock fuel (align sz) s l Hmode Hl Hf).
  rewrite (firstFit_loop_scan s (align sz) l _ _ Hl' Hf). cbn [bind].
  destruct (find (fits s (align sz)) l) as [a |] eqn:Hfind; simpl default.
  - apply find_some in Hfind as [Hin Hfit].
    apply list_elem_of_In in Hin.
    destruct (lseg_mapped _ _ _ _ _ Hl' Hin) as [Ha _].
    destruct (Z.eqb_spec a nullptr) as [E | _]; [congruence |].
    split; [reflexivity |].
    apply fits_block in Hfit as (b & Hb & Hu & _). eauto.
  - reflexivity.
Qed.

(** The reuse test of the second exercise: [p1 = alloc(9); free(p1);
    p2 = alloc(8)] gives [p2 == p1], and the block is still free. *)
Lemma reuse_alloc_leaves_the_block_free_witness :
  Reuse.alloc 2 8 one_free_block = Done (one_free_block, data_of 4096) /\
  exists b, mem one_free_block !! 4096 = Some b /\ used b = false.
Proof.
  apply (reuse_alloc_leaves_the_block_free 2 8 one_free_block [4096]).
  - apply walk_sound with (fuel := 1%nat). vm_compute. reflexivity.
  - reflexivity.
  - simpl. lia.
Defined.

(** [alloc] of the first exercise (its alignment tests: [alloc(3)] gives a
    block of 8 bytes, [alloc(9)] one of 16).  On a well-formed heap with
    room under the limit, every call puts a block of the aligned size at
    the old break, moves the break by the header and that size, chains
    the block after the last one and returns its payload; the block is
    not marked used. *)
Theorem sequential_alloc_appends (sz : Z) (s : Heap) (l : list Z) :
  wf s l ->
  align sz + header_bytes < 2 ^ 63 ->
  program_break s + header_bytes + align sz <= break_limit s ->
  exists s',
    Sequential.alloc sz s = Done (s', data_of (program_break s)) /\
    mem s' !! program_break s = Some (mkBlock (align sz) false nullptr) /\
    program_break s' = program_break s + header_bytes + align sz /\
    chain s' (l ++ [program_break s]) /\
    top s' = program_break s.
Proof.
  intros W Hsmall Hlim.
  pose proof (footprint_small sz Hsmall) as Hfoot.
  pose proof (align_range sz) as Hr.
  pose proof (wf_break s l W) as Hbrk.
  pose proof (wf_break_unmapped s l W) as HB.
  pose proof (wf_chain s l W) as Hl. unfold chain in Hl.
  assert (HBn : program_break s <> nullptr) by (unfold nullptr; lia).
  unfold Sequential.alloc.
  rewrite (requestFromOS_granted _ _ l W)
    by (rewrite Hfoot; unfold header_bytes, offsetof_data in *; lia).
  rewrite Hfoot.
  set (B := program_break s) in *.
  erewrite set_size_spec by (simpl; apply lookup_insert_eq).
  cbn [bind]. simpl. rewrite !insert_insert_eq.
  set (nb := mkBlock (align sz) false nullptr).
  destruct l as [| x l'].
  - apply lseg_nil_inv in Hl.
    pose proof (wf_top s [] W) as Ht. simpl in Ht.
    rewrite Hl, Ht. simpl.
    eexists. split; [reflexivity |]. simpl.
    split; [apply lookup_insert_eq |].
    split; [lia |]. split; [| reflexivity].
    unfold chain. simpl.
    apply lseg_cons with (b := nb);
      [assumption | apply lookup_insert_eq | constructor].
  - pose proof Hl as Hl'.
    apply lseg_cons_inv in Hl' as (-> & Hh & _).
    destruct (lseg_snoc (mem s) B nb HB HBn eq_refl _ _ Hl)
      as (tb & Htb & Hseg); [discriminate |].
    rewrite <- (wf_top s _ W) in Htb, Hseg.
    assert (Htop : top s <> nullptr).
    { rewrite (wf_top s _ W).
      eapply lseg_mapped; [exact Hl | apply last_elem; discriminate]. }
    assert (HtB : top s <> B) by congruence.
    destruct (Z.eqb_spec (heapStart s) nullptr) as [E | _]; [congruence |].
    simpl.
    destruct (Z.eqb_spec (top s) nullptr) as [E | _]; [congruence |].
    simpl.
    erewrite set_next_spec
      by (simpl; rewrite lookup_insert_ne by congruence; exact Htb).
    simpl. eexists. split; [reflexivity |]. simpl.
    split; [rewrite lookup_insert_ne by congruence; apply lookup_insert_eq |].
    split; [lia |]. split; [exact Hseg | reflexivity].
Qed.

(** The third alignment test of the first exercise: [alloc(9)] on the
    untouched heap gives a block whose header says 16 bytes. *)
Lemma sequential_alloc_appends_witness :
  exists s',
    Sequential.alloc 9 (initial 4096 65536) = Done (s', data_of 4096) /\
    mem s' !! 4096 = Some (mkBlock (align 9) false nullptr) /\
    program_break s' = 4096 + header_bytes + align 9 /\
    chain s' ([] ++ [4096]) /\
    top s' = 4096.
Proof.
  apply (sequential_alloc_appends 9 (initial 4096 65536) []).
  - apply wf_initial. lia.
  - vm_compute. reflexivity.
  - vm_compute. discriminate.
Defined.

